(** * PASSL, [passl/modeling/architectures/LVViTWrapper.py]

    A shallow embedding of the LV-ViT model wrapper, of its accuracy metric,
    of the soft-target cross-entropy and of the token-labeling loss, with the
    properties of each.

    Modelling conventions.
    - A tensor entry is an exact rational ([Qc]); rounding of the framework's
      floating-point numbers is not modelled, and a Python float literal such
      as [0.9] stands for the rational 9/10.
    - A tensor of rank 2 is a list of rows, one of rank 3 a list of such
      matrices; the shape of a tensor is read off its first elements.
    - Python exceptions are values of [exn]; a computation that may raise
      returns [res A = exn + A].
    - The tensor methods have their Paddle meaning: [repeat] tiles,
      [flip(0)] reverses the batch axis, [max(-1)] gives the largest value
      of each row (so [max(-1)[1]] is the largest value of the row of
      sample 1), [argmax(axis=-1)] gives the index of the first largest
      entry of each row, [topk(k, 1, True, True)] gives the indices of the
      [k] largest entries of each row in decreasing order and is defined
      for [1 <= k <= C] only. *)

From Stdlib Require Import String ZArith QArith Qcanon Arith Lia Bool List Permutation.
Import ListNotations.

Set Implicit Arguments.

(** ** Exceptions and results *)

Inductive exn : Type :=
| Exception (msg : string)
| AssertionError
| KeyError (key : string)
| ValueError (msg : string)
| IndexError
| TypeError
| ZeroDivisionError
| ShapeError (op : string).

Definition res (A : Type) : Type := (exn + A)%type.

Definition ret {A : Type} (a : A) : res A := inr a.
Definition raise {A : Type} (e : exn) : res A := inl e.

Definition bind {A B : Type} (m : res A) (k : A -> res B) : res B :=
  match m with
  | inl e => inl e
  | inr a => k a
  end.

Declare Scope res_scope.
Delimit Scope res_scope with res.
Notation "x <- m ;; k" := (bind m (fun x => k))
  (at level 61, m at next level, right associativity) : res_scope.
Notation "' p <- m ;; k" := (bind m (fun p => k))
  (at level 61, p pattern, m at next level, right associativity) : res_scope.
Open Scope res_scope.

Fixpoint mapM {A B : Type} (f : A -> res B) (l : list A) : res (list B) :=
  match l with
  | [] => ret []
  | a :: l' => b <- f a ;; bs <- mapM f l' ;; ret (b :: bs)
  end.

(** ** Scalars and tensors *)

Abbreviation scalar := Qc (only parsing).
Abbreviation vec := (list Qc) (only parsing).
Abbreviation mat := (list (list Qc)) (only parsing).
Abbreviation cube := (list (list (list Qc))) (only parsing).

Definition q (n : Z) (d : positive) : scalar := Q2Qc (n # d).
Definition of_nat (n : nat) : scalar := Q2Qc (inject_Z (Z.of_nat n)).

Open Scope Qc_scope.

Definition ltb (a b : scalar) : bool := if Qclt_le_dec a b then true else false.

Definition sum (v : vec) : scalar := fold_right Qcplus 0 v.

(** [t.mean()] over a vector; the mean of no entry at all is not a number in
    the framework and is [0] here ([Qc]'s division by zero). *)
Definition mean (v : vec) : scalar := sum v / of_nat (length v).

Definition shape2 {A : Type} (t : list (list A)) : nat * nat :=
  (length t, length (hd [] t)).

Definition shape3 {A : Type} (t : list (list (list A))) : nat * nat * nat :=
  (length t, length (hd [] t), length (hd [] (hd [] t))).

Definition has_shape2 {A : Type} (t : list (list A)) (R C : nat) : bool :=
  (length t =? R)%nat && forallb (fun r => (length r =? C)%nat) t.

Definition has_shape3 {A : Type} (t : list (list (list A))) (B N C : nat) : bool :=
  (length t =? B)%nat && forallb (fun m => has_shape2 m N C) t.

(** Pointwise combination of two lists of the same length. *)
Fixpoint map2 {A B C : Type} (f : A -> B -> C) (l : list A) (l' : list B) : list C :=
  match l, l' with
  | a :: r, b :: r' => f a b :: map2 f r r'
  | _, _ => []
  end.

(** Rows of [cols] entries cut from a flat list. *)
Fixpoint chunks {A : Type} (rows cols : nat) (l : list A) : list (list A) :=
  match rows with
  | O => []
  | S r => firstn cols l :: chunks r cols (skipn cols l)
  end.

(** [t.reshape([rows, cols])] on the entries of [t] in row-major order. *)
Definition reshape {A : Type} (rows cols : nat) (flat : list A) : res (list (list A)) :=
  if (length flat =? rows * cols)%nat then ret (chunks rows cols flat)
  else raise (ShapeError "reshape").

(** [t.reshape([-1, cols])]: the number of rows is inferred. *)
Definition reshape_infer {A : Type} (cols : nat) (flat : list A) : res (list (list A)) :=
  if (cols =? 0)%nat then raise (ShapeError "reshape")
  else if (length flat mod cols =? 0)%nat
       then ret (chunks (length flat / cols) cols flat)
       else raise (ShapeError "reshape").

(** [t.repeat(r, 1)]: [r] copies of a matrix stacked along axis 0. *)
Definition tile0 {A : Type} (r : nat) (t : list (list A)) : list (list A) :=
  concat (repeat t r).

(** [t.repeat([1, n])]: every row repeated [n] times along axis 1. *)
Definition tile1 {A : Type} (n : nat) (t : list (list A)) : list (list A) :=
  map (fun row => concat (repeat row n)) t.

(** [t[:, :, i]]. *)
Definition select_last (i : nat) (t : cube) : res mat :=
  if forallb (forallb (fun v : vec => (i <? length v)%nat)) t
  then ret (map (map (fun v : vec => nth i v 0)) t)
  else raise IndexError.

(** [t[:, :, i:]]. *)
Definition slice_last_from (i : nat) (t : cube) : cube :=
  map (map (skipn i)) t.

(** The transpose of a matrix with [cols] columns. *)
Definition transpose {A : Type} (d : A) (cols : nat) (m : list (list A)) : list (list A) :=
  map (fun j => map (fun r => nth j r d) m) (seq 0 cols).

(** [t.transpose([0, 2, 1])]. *)
Definition transpose021 (t : cube) : cube :=
  map (transpose 0 (length (hd [] (hd [] t)))) t.

(** [t.flip(0)]. *)
Definition flip0 {A : Type} (t : list A) : list A := rev t.

Definition scale (c : scalar) (t : mat) : mat := map (map (Qcmult c)) t.
Definition add (a b : mat) : mat := map2 (map2 Qcplus) a b.
Definition neg (t : mat) : mat := map (map Qcopp) t.

(** [t * r] for a tensor [r] of a single entry, broadcast over [t]. *)
Definition scale_by (t : mat) (r : scalar) : mat :=
  map (map (fun v => v * r)) t.

(** Broadcasting of two sizes along one axis. *)
Definition bdim (n m : nat) : option nat :=
  if (n =? m)%nat then Some n
  else if (n =? 1)%nat then Some m
  else if (m =? 1)%nat then Some n
  else None.

Definition stretch {A : Type} (d : A) (n : nat) (l : list A) : list A :=
  if (length l =? n)%nat then l else repeat (hd d l) n.

(** [a * b] on two matrices, with broadcasting.  A matrix without rows has
    no column count here (it reads as 0), so its product with a matrix of
    one row is refused where the framework returns a matrix without rows. *)
Definition mul (a b : mat) : res mat :=
  let '(ra, ca) := shape2 a in
  let '(rb, cb) := shape2 b in
  match bdim ra rb, bdim ca cb with
  | Some r, Some c =>
      ret (map2 (map2 Qcmult)
                (stretch [] r (map (stretch 0 c) a))
                (stretch [] r (map (stretch 0 c) b)))
  | _, _ => raise (ShapeError "multiply")
  end.

(** Index of the first largest entry of a row. *)
Fixpoint argmax_from (best_i : nat) (best : scalar) (i : nat) (l : vec) : nat :=
  match l with
  | [] => best_i
  | x :: l' =>
      if ltb best x then argmax_from i x (S i) l'
      else argmax_from best_i best (S i) l'
  end.

Definition argmax_index (l : vec) : nat :=
  match l with
  | [] => 0
  | x :: l' => argmax_from 0 x 1 l'
  end.

(** The largest entry of a row; [max] along an axis that has no entry is an
    error. *)
Definition row_max (l : vec) : scalar :=
  match l with
  | [] => 0
  | x :: l' => fold_left (fun m v => if ltb m v then v else m) l' x
  end.

Definition max_value (l : vec) : res scalar :=
  match l with
  | [] => raise (ShapeError "max")
  | _ :: _ => ret (row_max l)
  end.

(** [t[1]] on a tensor of rank 1. *)
Definition item1 {A : Type} (t : list A) : res A :=
  match t with
  | _ :: a :: _ => ret a
  | _ => raise IndexError
  end.

(** [a == b] on two entries. *)
Definition scalar_eqb (a b : scalar) : bool := if Qc_eq_dec a b then true else false.

(** [argmax] along an axis that has no entry is an error. *)
Definition argmax (l : vec) : res nat :=
  match l with
  | [] => raise (ShapeError "argmax")
  | _ :: _ => ret (argmax_index l)
  end.

(** Sorting of (value, index) pairs by decreasing value; among equal values
    the smaller index comes first. *)
Fixpoint insert_desc (p : scalar * nat) (l : list (scalar * nat)) : list (scalar * nat) :=
  match l with
  | [] => [p]
  | p' :: l' =>
      if ltb (fst p) (fst p') then p' :: insert_desc p l' else p :: l
  end.

Definition sort_desc (l : list (scalar * nat)) : list (scalar * nat) :=
  fold_right insert_desc [] l.

Definition ranking (row : vec) : list nat :=
  map snd (sort_desc (combine row (seq 0 (length row)))).

(** One row of [t.topk(k, 1, True, True)[1]]. *)
Definition topk_row (k : nat) (row : vec) : res (list nat) :=
  if (1 <=? k)%nat && (k <=? length row)%nat then ret (firstn k (ranking row))
  else raise (ShapeError "topk").

(** ** The accuracy metric (source lines 78-95) *)

(** The target of [accuracy]: a vector of class indices, or a matrix of soft
    labels ([target.dim() > 1]). *)
Inductive labels : Type :=
| ClassIndex (t : list nat)
| SoftLabel (t : mat).

(** [target.reshape([1, -1]).expand_as(pred)] for [pred] with [cols]
    columns: each row of the result is the target itself, a single target
    being broadcast. *)
Definition expand_as (cols : nat) (t : list nat) : res (list nat) :=
  if (length t =? cols)%nat then ret t
  else match t with
       | [c] => ret (repeat c cols)
       | _ => raise (ShapeError "expand_as")
       end.

Definition hit (p t : nat) : scalar := if (p =? t)%nat then 1 else 0.

Definition accuracy (output : mat) (target : labels) (topk : list nat)
  : res (list scalar) :=
  maxk <- match topk with
          | [] => raise (ValueError "max() arg is an empty sequence")
          | _ => ret (list_max topk)
          end ;;
  target <- match target with
            | ClassIndex t => ret t
            | SoftLabel t => mapM argmax t
            end ;;
  let batch_size := length target in
  pred <- mapM (topk_row maxk) output ;;
  let pred := transpose 0%nat maxk pred in
  target <- expand_as (length output) target ;;
  let correct := map (fun row => map2 hit row target) pred in
  ret (map (fun k => sum (concat (firstn k correct)) * q 100 1 / of_nat batch_size)
           topk).

(** ** The model of the framework's [log_softmax] *)

Section Loss.

(** [F.log_softmax(x, axis=-1)] subtracts from each entry of a row the
    logarithm of the sum of the exponentials of the row.  That number is
    not rational: it is a parameter of the development. *)
Variable logsumexp : vec -> scalar.

Definition log_softmax (x : mat) : mat :=
  map (fun row => map (fun v => v - logsumexp row) row) x.

(** ** Soft-target cross-entropy (source lines 98-105) *)

Definition CE_forward (x target : mat) : res scalar :=
  let N_rep := length x in
  let N := length target in
  target <- (if (N =? N_rep)%nat then ret target
             else if (N =? 0)%nat then raise ZeroDivisionError
                  else ret (tile0 (N_rep / N) target)) ;;
  prod <- mul (neg target) (log_softmax x) ;;
  let loss := map sum prod in
  ret (mean loss).

(** ** Token-labeling loss (source lines 108-160) *)

Record LVViTLoss : Type := {
  dense_weight : scalar;
  cls_weight : scalar;
  ground_truth : bool
}.

(** [LVViTLoss.__init__]; the defaults are [LVViTLoss_init 1 1 false]. *)
Definition LVViTLoss_init (dense_weight cls_weight : scalar) (ground_truth : bool)
  : res LVViTLoss :=
  if ltb 0 (dense_weight + cls_weight)
  then ret {| dense_weight := dense_weight;
              cls_weight := cls_weight;
              ground_truth := ground_truth |}
  else raise AssertionError.

(** The label tensor: rank 2, or anything else, which the code indexes as a
    rank-3 tensor. *)
Inductive target : Type :=
| Rank2 (t : mat)
| Rank3 (t : cube).

Definition bbox : Type := (scalar * scalar * scalar * scalar)%type.
Definition backbone_out : Type := (mat * cube * bbox)%type.

(** Lines 140-142: the mixing ratio, from the two values that
    [ground_truth.max(-1)[1]] and [target_cls.max(-1)[1]] pick. *)
Definition ratio_of (gt_max cls_max : scalar) : scalar :=
  q 9 10 - q 4 10 * (if scalar_eqb gt_max cls_max then 1 else 0).

(** Lines 131-145: the classification and the auxiliary target. *)
Definition decompose_target (gt : bool) (B N C : nat) (tg : target) : res (mat * mat) :=
  match tg with
  | Rank2 t =>
      let target_cls := t in
      target_aux <- reshape (B * N) C (concat (tile1 N t)) ;;
      ret (target_cls, target_aux)
  | Rank3 t =>
      target_cls <- select_last 1 t ;;
      target_cls <-
        (if gt then
           ground_truth <- select_last 0 t ;;
           gt_values <- mapM max_value ground_truth ;;
           gt_max <- item1 gt_values ;;
           cls_values <- mapM max_value target_cls ;;
           cls_max <- item1 cls_values ;;
           let ratio := ratio_of gt_max cls_max in
           ret (add (scale_by target_cls ratio)
                    (scale_by ground_truth (1 - ratio)))
         else ret target_cls) ;;
      let target_aux := slice_last_from 2 t in
      target_aux <- reshape_infer C (concat (concat (transpose021 target_aux))) ;;
      ret (target_cls, target_aux)
  end.

(** Line 146. *)
Definition lam_of (bb : bbox) (N : nat) : res scalar :=
  let '(bbx1, bby1, bbx2, bby2) := bb in
  if (N =? 0)%nat then raise ZeroDivisionError
  else ret (1 - ((bbx2 - bbx1) * (bby2 - bby1) / of_nat N)).

(** Lines 147-148. *)
Definition mix_target (lam : scalar) (target_cls : mat) : mat :=
  if ltb lam 1
  then add (scale lam target_cls) (scale (1 - lam) (flip0 target_cls))
  else target_cls.

Definition dict : Type := list (string * scalar).

(** [d[k] = v] on an insertion-ordered dictionary. *)
Fixpoint setitem (d : dict) (k : string) (v : scalar) : dict :=
  match d with
  | [] => [(k, v)]
  | (k', v') :: d' =>
      if String.eqb k k' then (k, v) :: d' else (k', v') :: setitem d' k v
  end.

Definition LVViTLoss_forward (self : LVViTLoss) (x : backbone_out) (tg : target)
  : res dict :=
  let '(output, aux_output, bb) := x in
  let '(B, N, C) := shape3 aux_output in
  '(target_cls, target_aux) <- decompose_target (ground_truth self) B N C tg ;;
  lam <- lam_of bb N ;;
  let target_cls := mix_target lam target_cls in
  aux_output <- reshape_infer C (concat (concat aux_output)) ;;
  loss_cls <- CE_forward output target_cls ;;
  loss_aux <- CE_forward aux_output target_aux ;;
  let losses := [] in
  let losses := setitem losses "loss"
                  (cls_weight self * loss_cls + dense_weight self * loss_aux) in
  acc <- accuracy output (SoftLabel target_cls) [1%nat; 5%nat] ;;
  match acc with
  | [acc1; acc5] =>
      let losses := setitem losses "acc1" acc1 in
      let losses := setitem losses "acc5" acc5 in
      ret losses
  | _ => raise (ValueError "unpack")
  end.

(** ** The model wrapper (source lines 25-75) *)

Section Wrapper.

Variables image features : Type.

Record LVViTWrapper : Type := {
  backbone : image -> backbone_out;
  backbone_forward_features : image -> features;
  automatic_optimization : bool;
  loss : LVViTLoss
}.

(** [LVViTWrapper.__init__], given the backbone that [build_backbone] made. *)
Definition LVViTWrapper_init (bb : image -> backbone_out) (ff : image -> features)
  : res LVViTWrapper :=
  l <- LVViTLoss_init 1 1 false ;;
  ret {| backbone := bb;
         backbone_forward_features := ff;
         automatic_optimization := false;
         loss := l |}.

(** A positional input: an image batch or a label batch. *)
Inductive pyarg : Type :=
| Image (img : image)
| Label (label : target).

(** The value given for the keyword [mixup_fn]. *)
Inductive kwarg : Type :=
| PyNone
| Callable (f : image -> target -> image * target).

Definition kwargs : Type := list (string * kwarg).

(** [kwargs[key]]. *)
Fixpoint getitem (kw : kwargs) (key : string) : res kwarg :=
  match kw with
  | [] => raise (KeyError key)
  | (k, v) :: kw' => if String.eqb key k then ret v else getitem kw' key
  end.

(** What a call of the wrapper returns. *)
Inductive outputs : Type :=
| Losses (d : dict)
| Outs (o : backbone_out)
| Features (f : features).

Definition train_iter (self : LVViTWrapper) (inputs : list pyarg) (kw : kwargs)
  : res outputs :=
  match inputs with
  | [a; b] =>
      mixup_fn <- getitem kw "mixup_fn" ;;
      match a, b with
      | Image img, Label label =>
          let '(img, label) :=
            match mixup_fn with
            | Callable f => f img label
            | PyNone => (img, label)
            end in
          let outs := backbone self img in
          outputs <- LVViTLoss_forward (loss self) outs label ;;
          ret (Losses outputs)
      | _, _ => raise TypeError
      end
  | _ => raise (ValueError "unpack")
  end.

Definition test_iter (self : LVViTWrapper) (inputs : list pyarg) (kw : kwargs)
  : res outputs :=
  match inputs with
  | [a; b] =>
      match a with
      | Image img => ret (Outs (backbone self img))
      | Label _ => raise TypeError
      end
  | _ => raise (ValueError "unpack")
  end.

Definition infer_iter (self : LVViTWrapper) (inputs : list pyarg) (kw : kwargs)
  : res outputs :=
  match inputs with
  | [Image img] => ret (Outs (backbone self img))
  | _ => raise TypeError
  end.

Definition forward (self : LVViTWrapper) (inputs : list pyarg) (mode : string)
           (kw : kwargs) : res outputs :=
  if String.eqb mode "train" then train_iter self inputs kw
  else if String.eqb mode "test" then test_iter self inputs kw
  else if String.eqb mode "infer" then infer_iter self inputs kw
  else if String.eqb mode "extract" then
    match inputs with
    | [] => raise IndexError
    | Image img :: _ => ret (Features (backbone_forward_features self img))
    | Label _ :: _ => raise TypeError
    end
  else raise (Exception ("No such mode: " ++ mode)).

End Wrapper.

End Loss.

Arguments PyNone {image}.
Arguments Label {image} label.
Arguments Losses {features} d.
Arguments Outs {features} o.

(** ** Reference formulations used by the statements below *)

Definition entry (t : mat) (i j : nat) : scalar := nth j (nth i t []) 0.

Definition entry3 (t : cube) (b c k : nat) : scalar :=
  nth k (nth c (nth b t []) []) 0.

(** The soft cross-entropy as the specification words it: the mean over the
    [M] rows of the sum over the [C] classes of [-target * log_softmax(x)],
    row [i] of the logits facing row [i mod N] of the target. *)
Definition soft_cross_entropy_spec (logsumexp : vec -> scalar)
           (M N C : nat) (x target : mat) : scalar :=
  mean (map (fun i =>
               sum (map (fun j => - entry target (i mod N) j
                                  * entry (log_softmax logsumexp x) i j)
                        (seq 0 C)))
            (seq 0 M)).

(** Whether class [t] is among the [k] best-ranked classes of a row. *)
Definition in_topk (k : nat) (row : vec) (t : nat) : bool :=
  existsb (Nat.eqb t) (firstn k (ranking row)).

(** The number of rows whose true class is among the top [k] predictions. *)
Definition hits (k : nat) (output : mat) (idx : list nat) : nat :=
  length (filter (fun p => in_topk k (fst p) (snd p)) (combine output idx)).

(** The class indices that [accuracy] compares the predictions with. *)
Definition class_indices (tg : labels) : res (list nat) :=
  match tg with
  | ClassIndex t => ret t
  | SoftLabel t => mapM argmax t
  end.

(** The shape a label tensor must have next to auxiliary logits of shape
    [B, N, C]. *)
Definition target_fits (tg : target) (B N C : nat) : bool :=
  match tg with
  | Rank2 t => has_shape2 t B C
  | Rank3 t => has_shape3 t B C (N + 2)
  end.

Definition keys (d : dict) : list string := map fst d.

(** The calls on which line 136 does not apply the ground-truth correction:
    the flag is off, or the target has rank 2. *)
Definition no_correction (gt : bool) (tg : target) : bool :=
  negb gt || match tg with
             | Rank2 _ => true
             | Rank3 _ => false
             end.

(** The standard soft cross-entropy, [mean(sum(-target * log_softmax(x)))],
    of logits and targets with the same number of rows. *)
Definition standard_soft_cross_entropy (logsumexp : vec -> scalar)
           (x target : mat) : scalar :=
  mean (map2 (fun t l => sum (map2 (fun a b => - a * b) t l))
             target (log_softmax logsumexp x)).

(** The shape a target of [accuracy] must have next to logits of shape
    [B, C]. *)
Definition labels_fit (tg : labels) (B C : nat) : bool :=
  match tg with
  | ClassIndex t => (length t =? B)%nat
  | SoftLabel t => has_shape2 t B C
  end.

(** A result other than the plain [Exception] that the mode dispatch
    raises. *)
Definition no_exception {A : Type} (m : res A) : Prop :=
  match m with
  | inl (Exception _) => False
  | _ => True
  end.

Definition valid_modes : list string := ["train"; "test"; "infer"; "extract"]%string.

(** ** Sample inputs *)

(** A stand-in for the log-sum-exp of a row, used to run the model on the
    samples below: the largest entry of the row. *)
Definition sample_logsumexp (row : vec) : scalar :=
  fold_right (fun a b => if ltb a b then b else a) 0 row.

(** Logits of shape [2, 5]. *)
Definition sample_output : mat :=
  [[q 1 1; q 2 1; q 3 1; q 4 1; q 5 1];
   [q 5 1; q 4 1; q 3 1; q 2 1; q 1 1]].

(** Auxiliary logits of shape [2, 2, 5]. *)
Definition sample_aux : cube :=
  [[[q 1 1; q 2 1; q 3 1; q 4 1; q 5 1]; [q 2 1; q 1 1; q 0 1; q 1 1; q 2 1]];
   [[q 5 1; q 4 1; q 3 1; q 2 1; q 1 1]; [q 0 1; q 1 1; q 2 1; q 1 1; q 0 1]]].

(** A rank-2 target of shape [2, 5]. *)
Definition sample_target2 : mat :=
  [[q 0 1; q 0 1; q 0 1; q 0 1; q 1 1];
   [q 0 1; q 1 1; q 0 1; q 0 1; q 0 1]].

(** A rank-3 target of shape [2, 5, 4]: for each sample and class, the
    ground truth, the classification label and the labels of two tokens. *)
Definition sample_target3 : cube :=
  [[[q 0 1; q 1 10; q 0 1; q 1 1]; [q 0 1; q 1 10; q 0 1; q 0 1];
    [q 0 1; q 1 10; q 1 1; q 0 1]; [q 0 1; q 1 10; q 0 1; q 0 1];
    [q 1 1; q 6 10; q 0 1; q 0 1]];
   [[q 1 1; q 1 10; q 1 1; q 0 1]; [q 0 1; q 6 10; q 0 1; q 1 1];
    [q 0 1; q 1 10; q 0 1; q 0 1]; [q 0 1; q 1 10; q 0 1; q 0 1];
    [q 0 1; q 1 10; q 0 1; q 0 1]]].

Definition sample_bbox : bbox := (q 0 1, q 0 1, q 1 1, q 1 1).

Definition sample_loss : LVViTLoss :=
  {| dense_weight := 1; cls_weight := 1; ground_truth := false |}.

Definition sample_wrapper : LVViTWrapper unit unit :=
  {| backbone := fun _ => (sample_output, sample_aux, sample_bbox);
     backbone_forward_features := fun _ => tt;
     automatic_optimization := false;
     loss := sample_loss |}.

(** A rank-3 target laid out as [B, N, K] = [1, 2, 7], tokens on the second
    axis, next to logits of shape [1, 5] and auxiliary logits of shape
    [1, 2, 5]. *)
Definition tokens_first_target : cube :=
  [[[q 1 1; q 2 1; q 3 1; q 4 1; q 5 1; q 6 1; q 7 1];
    [q 11 1; q 12 1; q 13 1; q 14 1; q 15 1; q 16 1; q 17 1]]].

Definition tokens_first_output : mat := [[q 1 1; q 2 1; q 3 1; q 4 1; q 5 1]].

Definition tokens_first_aux : cube :=
  [[[q 1 1; q 2 1; q 3 1; q 4 1; q 5 1]; [q 5 1; q 4 1; q 3 1; q 2 1; q 1 1]]].


(** Logits of shape [2, 3], auxiliary logits of shape [2, 4, 3] and a rank-2
    target of shape [2, 3]: three classes only. *)
Definition three_class_output : mat :=
  [[q 1 1; q 2 1; q 3 1]; [q 3 1; q 2 1; q 1 1]].

Definition three_class_aux : cube :=
  [[[q 1 1; q 2 1; q 3 1]; [q 1 1; q 2 1; q 3 1];
    [q 1 1; q 2 1; q 3 1]; [q 1 1; q 2 1; q 3 1]];
   [[q 3 1; q 2 1; q 1 1]; [q 3 1; q 2 1; q 1 1];
    [q 3 1; q 2 1; q 1 1]; [q 3 1; q 2 1; q 1 1]]].

Definition three_class_target : mat :=
  [[q 0 1; q 0 1; q 1 1]; [q 1 1; q 0 1; q 0 1]].

(** The loss module with ground-truth correction, and the first sample of
    [sample_target3] as a batch of its own. *)
Definition sample_loss_gt : LVViTLoss :=
  {| dense_weight := 1; cls_weight := 1; ground_truth := true |}.

Definition sample_target3_single : cube := firstn 1 sample_target3.

(** A target of three rows next to logits of four rows, and a rank-3 target
    with a single slice on its last axis. *)
Definition sample_target_three : mat :=
  [[q 1 1; q 0 1; q 0 1; q 0 1; q 0 1];
   [q 0 1; q 1 1; q 0 1; q 0 1; q 0 1];
   [q 0 1; q 0 1; q 1 1; q 0 1; q 0 1]].

Definition sample_target_one_slice : cube :=
  [[[q 1 1]; [q 0 1]; [q 0 1]; [q 0 1]; [q 0 1]]].

(** * Properties *)

Unset Implicit Arguments.
Open Scope nat_scope.


(** ** Results *)

Lemma bind_inr {A B : Type} (m : res A) (k : A -> res B) (a : A) :
  m = inr a -> bind m k = k a.
Proof. intros ->. reflexivity. Qed.

Lemma mapM_total {A B : Type} (f : A -> res B) (g : A -> B) (l : list A) :
  (forall a, In a l -> f a = inr (g a)) -> mapM f l = inr (map g l).
Proof.
  induction l as [|a l IH]; intros H; simpl.
  - reflexivity.
  - rewrite (H a (or_introl eq_refl)). simpl.
    rewrite IH by (intros; apply H; now right). reflexivity.
Qed.

(** ** Shapes *)

Lemma has_shape2_spec {A : Type} (t : list (list A)) (R C : nat) :
  has_shape2 t R C = true <-> length t = R /\ Forall (fun r => length r = C) t.
Proof.
  unfold has_shape2. rewrite andb_true_iff, Nat.eqb_eq, forallb_forall, Forall_forall.
  split; intros [H1 H2]; split; auto; intros r Hr.
  - apply Nat.eqb_eq; auto.
  - apply Nat.eqb_eq; auto.
Qed.

Lemma has_shape3_spec {A : Type} (t : list (list (list A))) (B N C : nat) :
  has_shape3 t B N C = true <->
  length t = B /\ Forall (fun m => has_shape2 m N C = true) t.
Proof.
  unfold has_shape3. rewrite andb_true_iff, Nat.eqb_eq, forallb_forall, Forall_forall.
  tauto.
Qed.

Lemma has_shape2_intro {A : Type} (t : list (list A)) (R C : nat) :
  length t = R -> (forall r, In r t -> length r = C) -> has_shape2 t R C = true.
Proof. intros H1 H2. apply has_shape2_spec. split; auto. now apply Forall_forall. Qed.

Lemma has_shape2_length {A : Type} (t : list (list A)) (R C : nat) :
  has_shape2 t R C = true -> length t = R.
Proof. intros H. now apply has_shape2_spec in H. Qed.

Lemma has_shape2_row {A : Type} (t : list (list A)) (R C : nat) (r : list A) :
  has_shape2 t R C = true -> In r t -> length r = C.
Proof.
  intros H Hr. apply has_shape2_spec in H. destruct H as [_ H].
  rewrite Forall_forall in H. auto.
Qed.

Lemma has_shape2_nth {A : Type} (t : list (list A)) (R C i : nat) :
  has_shape2 t R C = true -> i < R -> length (nth i t []) = C.
Proof.
  intros H Hi. eapply has_shape2_row; eauto.
  apply nth_In. now rewrite (has_shape2_length _ _ _ H).
Qed.

Lemma has_shape2_hd {A : Type} (t : list (list A)) (R C : nat) :
  has_shape2 t R C = true -> 1 <= R -> length (hd [] t) = C.
Proof.
  intros H HR. destruct t as [|r t].
  - apply has_shape2_length in H. simpl in H. lia.
  - simpl. eapply has_shape2_row; eauto. now left.
Qed.

Lemma shape2_of {A : Type} (t : list (list A)) (R C : nat) :
  has_shape2 t R C = true -> 1 <= R -> shape2 t = (R, C).
Proof.
  intros H HR. unfold shape2.
  now rewrite (has_shape2_length _ _ _ H), (has_shape2_hd _ _ _ H HR).
Qed.

Lemma shape3_of {A : Type} (t : list (list (list A))) (B N C : nat) :
  has_shape3 t B N C = true -> 1 <= B -> 1 <= N -> shape3 t = (B, N, C).
Proof.
  intros H HB HN. apply has_shape3_spec in H. destruct H as [HL HF].
  unfold shape3. destruct t as [|m t]; simpl in *; [lia|].
  inversion HF as [|? ? Hm _]; subst.
  now rewrite (has_shape2_length _ _ _ Hm), (has_shape2_hd _ _ _ Hm HN).
Qed.

(** ** Lists: pointwise maps, chunks, tiles *)

Lemma map2_length {A B C : Type} (f : A -> B -> C) (l : list A) (l' : list B) :
  length l = length l' -> length (map2 f l l') = length l.
Proof.
  revert l'. induction l as [|a l IH]; intros [|b l'] H; simpl in *; try lia.
  now rewrite IH by lia.
Qed.

Lemma map2_nth {A B C : Type} (f : A -> B -> C) (l : list A) (l' : list B)
      (da : A) (db : B) (dc : C) (i : nat) :
  length l = length l' -> i < length l ->
  nth i (map2 f l l') dc = f (nth i l da) (nth i l' db).
Proof.
  revert l' i. induction l as [|a l IH]; intros [|b l'] i H Hi; simpl in *; try lia.
  destruct i; [reflexivity|]. apply IH; lia.
Qed.

Lemma map2_In {A B C : Type} (f : A -> B -> C) (l : list A) (l' : list B) (c : C) :
  In c (map2 f l l') -> exists a b, In a l /\ In b l' /\ c = f a b.
Proof.
  revert l'. induction l as [|a l IH]; intros [|b l'] H; simpl in *; try tauto.
  destruct H as [H|H].
  - exists a, b. auto.
  - destruct (IH _ H) as (a' & b' & ? & ? & ?). exists a', b'. auto.
Qed.

Lemma map2_seq {A B C : Type} (f : A -> B -> C) (l : list A) (l' : list B)
      (da : A) (db : B) (n : nat) :
  length l = n -> length l' = n ->
  map2 f l l' = map (fun i => f (nth i l da) (nth i l' db)) (seq 0 n).
Proof.
  revert l' n. induction l as [|a l IH]; intros [|b l'] n H H'; simpl in *; subst;
    try discriminate; try reflexivity.
  simpl. f_equal. rewrite <- seq_shift, map_map. apply IH; auto.
Qed.

Lemma map2_combine {A B C : Type} (f : A -> B -> C) (l : list A) (l' : list B) :
  map2 f l l' = map (fun p => f (fst p) (snd p)) (combine l l').
Proof.
  revert l'. induction l as [|a l IH]; intros [|b l']; simpl; try reflexivity.
  now rewrite IH.
Qed.

Lemma chunks_length {A : Type} (rows cols : nat) (l : list A) :
  length (chunks rows cols l) = rows.
Proof. revert l. induction rows; intros; simpl; auto. Qed.

Lemma chunks_concat {A : Type} (cols : nat) (rows : list (list A)) :
  (forall r, In r rows -> length r = cols) ->
  chunks (length rows) cols (concat rows) = rows.
Proof.
  induction rows as [|r rows IH]; intros H; simpl.
  - reflexivity.
  - assert (Hr : length r = cols) by (apply H; now left).
    rewrite firstn_app, skipn_app, Hr, Nat.sub_diag. simpl.
    rewrite app_nil_r. subst cols. rewrite firstn_all, skipn_all. simpl.
    rewrite IH by (intros; apply H; now right). reflexivity.
Qed.

Lemma concat_length_uniform {A : Type} (cols : nat) (rows : list (list A)) :
  (forall r, In r rows -> length r = cols) ->
  length (concat rows) = length rows * cols.
Proof.
  induction rows as [|r rows IH]; intros H; simpl; auto.
  rewrite length_app, IH by (intros; apply H; now right).
  rewrite (H r) by now left. reflexivity.
Qed.

Lemma reshape_concat {A : Type} (rows cols : nat) (t : list (list A)) :
  has_shape2 t rows cols = true ->
  reshape rows cols (concat t) = inr t.
Proof.
  intros H. unfold reshape.
  pose proof (has_shape2_length _ _ _ H) as HL.
  rewrite (concat_length_uniform cols t) by (intros; eapply has_shape2_row; eauto).
  rewrite HL, Nat.eqb_refl. unfold ret. f_equal.
  rewrite <- HL. apply chunks_concat. intros; eapply has_shape2_row; eauto.
Qed.

Lemma reshape_infer_concat {A : Type} (rows cols : nat) (t : list (list A)) :
  has_shape2 t rows cols = true -> 1 <= cols ->
  reshape_infer cols (concat t) = inr t.
Proof.
  intros H Hc. unfold reshape_infer.
  pose proof (has_shape2_length _ _ _ H) as HL.
  rewrite (concat_length_uniform cols t) by (intros; eapply has_shape2_row; eauto).
  destruct (Nat.eqb_spec cols 0); [lia|].
  rewrite Nat.Div0.mod_mul, Nat.eqb_refl, Nat.div_mul by lia.
  unfold ret. f_equal. apply chunks_concat. intros; eapply has_shape2_row; eauto.
Qed.

Lemma concat_repeat_length {A : Type} (l : list A) (n : nat) :
  length (concat (repeat l n)) = n * length l.
Proof. induction n; simpl; auto. rewrite length_app, IHn. lia. Qed.

Lemma nth_concat_uniform {A : Type} (cols : nat) (rows : list (list A)) (d : A)
      (i j : nat) :
  (forall r, In r rows -> length r = cols) -> j < cols ->
  nth (i * cols + j) (concat rows) d = nth j (nth i rows []) d.
Proof.
  revert i. induction rows as [|r rows IH]; intros i H Hj; simpl.
  - destruct i; simpl; [reflexivity|].
    destruct (cols + i * cols + j), j; reflexivity.
  - assert (Hr : length r = cols) by (apply H; now left).
    destruct i; simpl.
    + rewrite app_nth1 by lia. reflexivity.
    + rewrite app_nth2 by lia.
      replace (cols + i * cols + j - length r) with (i * cols + j) by lia.
      apply IH; auto. intros; apply H; now right.
Qed.

Lemma nth_tile0 {A : Type} (r : nat) (t : list (list A)) (i : nat) :
  i < r * length t -> nth i (tile0 r t) [] = nth (i mod length t) t [].
Proof.
  unfold tile0. revert i. induction r as [|r IH]; intros i Hi; simpl in *; [lia|].
  destruct (Nat.lt_ge_cases i (length t)) as [Hlt|Hge].
  - rewrite app_nth1 by lia. now rewrite Nat.mod_small.
  - rewrite app_nth2 by lia. rewrite IH by lia.
    f_equal. replace i with ((i - length t) + 1 * length t) at 2 by lia.
    now rewrite Nat.Div0.mod_add.
Qed.

Lemma tile0_length {A : Type} (r : nat) (t : list (list A)) :
  length (tile0 r t) = r * length t.
Proof. apply concat_repeat_length. Qed.

Lemma tile0_In {A : Type} (r : nat) (t : list (list A)) (row : list A) :
  In row (tile0 r t) -> In row t.
Proof.
  unfold tile0. induction r; simpl; [tauto|].
  rewrite in_app_iff. tauto.
Qed.

Lemma tile0_one {A : Type} (t : list (list A)) : tile0 1 t = t.
Proof. unfold tile0. simpl. apply app_nil_r. Qed.

Lemma nth_concat_repeat_rows {A : Type} (N : nat) (t : list (list A)) (b n : nat) :
  n < N ->
  nth (b * N + n) (concat (map (fun row => repeat row N) t)) [] = nth b t [].
Proof.
  intros Hn. rewrite (nth_concat_uniform N).
  - destruct (Nat.lt_ge_cases b (length t)) as [Hb|Hb].
    + rewrite (nth_indep _ [] (repeat [] N)) by now rewrite length_map.
      rewrite (map_nth (fun row => repeat row N)).
      apply nth_repeat_lt. exact Hn.
    + rewrite (nth_overflow (map _ t)) by now rewrite length_map.
      rewrite (nth_overflow t) by lia. now destruct n.
  - intros r Hr. apply in_map_iff in Hr. destruct Hr as (row & <- & _).
    apply repeat_length.
  - exact Hn.
Qed.

(** ** Elementwise operations *)

Lemma bdim_same (n : nat) : bdim n n = Some n.
Proof. unfold bdim. now rewrite Nat.eqb_refl. Qed.

Lemma stretch_same {A : Type} (d : A) (n : nat) (l : list A) :
  length l = n -> stretch d n l = l.
Proof. intros H. unfold stretch. now rewrite H, Nat.eqb_refl. Qed.

Lemma hd_length_same {A : Type} (a b : list (list A)) (R C : nat) :
  has_shape2 a R C = true -> has_shape2 b R C = true ->
  exists c, length (hd [] a) = c /\ length (hd [] b) = c /\
            (forall r, In r a -> length r = c) /\ (forall r, In r b -> length r = c).
Proof.
  intros Ha Hb. destruct R as [|R].
  - apply has_shape2_length in Ha, Hb.
    destruct a, b; try discriminate. exists 0. simpl. tauto.
  - exists C. rewrite (has_shape2_hd _ _ _ Ha), (has_shape2_hd _ _ _ Hb) by lia.
    split; [reflexivity|]. split; [reflexivity|].
    split; intros r Hr; [exact (has_shape2_row _ _ _ _ Ha Hr)
                        | exact (has_shape2_row _ _ _ _ Hb Hr)].
Qed.

Lemma mul_same_shape (a b : mat) (R C : nat) :
  has_shape2 a R C = true -> has_shape2 b R C = true ->
  mul a b = inr (map2 (map2 Qcmult) a b).
Proof.
  intros Ha Hb. unfold mul, shape2.
  destruct (hd_length_same a b R C Ha Hb) as (c & Hca & Hcb & Hra & Hrb).
  rewrite Hca, Hcb, (has_shape2_length _ _ _ Ha), (has_shape2_length _ _ _ Hb).
  rewrite !bdim_same. unfold ret. f_equal.
  assert (Hm : forall t : mat, (forall r, In r t -> length r = c) ->
                               map (stretch 0%Qc c) t = t).
  { intros t Ht. rewrite <- (map_id t) at 2. apply map_ext_in.
    intros r Hr. apply stretch_same. auto. }
  rewrite (Hm a Hra), (Hm b Hrb).
  rewrite !stretch_same by (eapply has_shape2_length; eauto). reflexivity.
Qed.

Lemma neg_shape (t : mat) (R C : nat) :
  has_shape2 t R C = true -> has_shape2 (neg t) R C = true.
Proof.
  intros H. apply has_shape2_intro.
  - unfold neg. rewrite length_map. eapply has_shape2_length; eauto.
  - intros r Hr. apply in_map_iff in Hr. destruct Hr as (r' & <- & Hr').
    rewrite length_map. eapply has_shape2_row; eauto.
Qed.

Lemma log_softmax_shape (lse : vec -> scalar) (t : mat) (R C : nat) :
  has_shape2 t R C = true -> has_shape2 (log_softmax lse t) R C = true.
Proof.
  intros H. apply has_shape2_intro.
  - unfold log_softmax. rewrite length_map. eapply has_shape2_length; eauto.
  - intros r Hr. apply in_map_iff in Hr. destruct Hr as (r' & <- & Hr').
    rewrite length_map. eapply has_shape2_row; eauto.
Qed.

Lemma tile0_shape (r : nat) (t : mat) (N C : nat) :
  has_shape2 t N C = true -> has_shape2 (tile0 r t) (r * N) C = true.
Proof.
  intros H. apply has_shape2_intro.
  - rewrite tile0_length. now rewrite (has_shape2_length _ _ _ H).
  - intros row Hrow. apply tile0_In in Hrow. eapply has_shape2_row; eauto.
Qed.

Lemma nth_neg (t : mat) (i j : nat) (R C : nat) :
  has_shape2 t R C = true -> i < R -> j < C ->
  nth j (nth i (neg t) []) 0%Qc = (- entry t i j)%Qc.
Proof.
  intros H Hi Hj. unfold neg, entry.
  pose proof (has_shape2_length _ _ _ H) as HL.
  rewrite (nth_indep _ [] (map Qcopp [])) by (rewrite length_map; lia).
  rewrite (map_nth (map Qcopp)).
  rewrite (nth_indep _ 0%Qc (Qcopp 0%Qc))
    by (rewrite length_map, (has_shape2_nth _ _ _ _ H Hi); lia).
  now rewrite (map_nth Qcopp).
Qed.

(** The rows that [CE_forward] multiplies with the log-probabilities. *)
Lemma CE_forward_unfold (lse : vec -> scalar) (x target : mat) (M N C r : nat) :
  has_shape2 x M C = true -> has_shape2 target N C = true -> M = r * N ->
  CE_forward lse x target
  = inr (mean (map sum (map2 (map2 Qcmult) (neg (tile0 r target)) (log_softmax lse x)))).
Proof.
  intros Hx Ht HM. unfold CE_forward.
  rewrite (has_shape2_length _ _ _ Hx), (has_shape2_length _ _ _ Ht).
  assert (Htile : (if N =? M then ret target
                   else if N =? 0 then raise ZeroDivisionError
                        else ret (tile0 (M / N) target)) = inr (tile0 r target)).
  { destruct (Nat.eqb_spec N M) as [E|E].
    - unfold ret. f_equal. destruct N as [|N].
      + apply has_shape2_length in Ht. destruct target; [|discriminate].
        unfold tile0. clear. induction r; simpl; auto.
      + assert (r = 1) by nia. subst r. now rewrite tile0_one.
    - destruct (Nat.eqb_spec N 0) as [E0|E0]; [subst; lia|].
      subst M. now rewrite Nat.div_mul. }
  rewrite Htile. simpl.
  rewrite (mul_same_shape _ _ M C).
  - reflexivity.
  - apply neg_shape. subst M. now apply tile0_shape.
  - now apply log_softmax_shape.
Qed.

(** ** Rational arithmetic *)

Section Arithmetic.

Local Open Scope Qc_scope.

Lemma of_nat_neq_0 (n : nat) : (1 <= n)%nat -> of_nat n <> 0.
Proof.
  intros Hn E. unfold of_nat in E.
  apply Q2Qc_eq_iff in E. unfold Qeq in E. simpl in E. lia.
Qed.

Lemma of_nat_S (n : nat) : of_nat (S n) = of_nat n + 1.
Proof.
  apply Qc_is_canon. unfold of_nat, Qcplus, Q2Qc. cbn [this].
  rewrite !Qred_correct.
  rewrite Nat2Z.inj_succ. unfold Z.succ. rewrite inject_Z_plus. reflexivity.
Qed.

Lemma of_nat_0 : of_nat 0 = 0.
Proof. apply Qc_is_canon. reflexivity. Qed.

Lemma of_nat_le (n m : nat) : (n <= m)%nat -> of_nat n <= of_nat m.
Proof.
  intros H. unfold of_nat, Qcle, Q2Qc. cbn [this]. rewrite !Qred_correct.
  rewrite <- Zle_Qle. lia.
Qed.

Lemma of_nat_pos (n : nat) : (1 <= n)%nat -> 0 < of_nat n.
Proof.
  intros H. unfold of_nat, Qclt, Q2Qc. cbn [this]. rewrite !Qred_correct.
  change (0 < inject_Z (Z.of_nat n))%Q. change 0%Q with (inject_Z 0). rewrite <- Zlt_Qlt. lia.
Qed.


Lemma percent_range (h B : nat) :
  (h <= B)%nat -> (1 <= B)%nat ->
  0 <= of_nat h * q 100 1 / of_nat B /\ of_nat h * q 100 1 / of_nat B <= q 100 1.
Proof.
  intros Hh HB.
  pose proof (of_nat_pos B HB) as Hpos.
  assert (Hne : of_nat B <> 0) by (now apply of_nat_neq_0).
  assert (H100 : 0 <= q 100 1) by (unfold Qcle; simpl; discriminate).
  assert (E : of_nat h * q 100 1 / of_nat B * of_nat B = of_nat h * q 100 1)
    by (field; exact Hne).
  split; apply (Qcmult_lt_0_le_reg_r _ _ (of_nat B) Hpos); rewrite E.
  - replace (0 * of_nat B) with (0 * q 100 1) by ring.
    apply Qcmult_le_compat_r; auto.
    rewrite <- of_nat_0. apply of_nat_le. lia.
  - rewrite (Qcmult_comm (q 100 1)).
    apply Qcmult_le_compat_r; auto. now apply of_nat_le.
Qed.

Lemma percent_full (B : nat) :
  (1 <= B)%nat -> of_nat B * q 100 1 / of_nat B = q 100 1.
Proof. intros HB. field. now apply of_nat_neq_0. Qed.

End Arithmetic.

Lemma map2_map_l {A A' B C : Type} (f : A' -> B -> C) (g : A -> A')
      (l : list A) (l' : list B) :
  map2 f (map g l) l' = map2 (fun a b => f (g a) b) l l'.
Proof.
  revert l'. induction l as [|a l IH]; intros [|b l']; simpl; try reflexivity.
  now rewrite IH.
Qed.

Lemma map_map2 {A B C D : Type} (h : C -> D) (f : A -> B -> C)
      (l : list A) (l' : list B) :
  map h (map2 f l l') = map2 (fun a b => h (f a b)) l l'.
Proof.
  revert l'. induction l as [|a l IH]; intros [|b l']; simpl; try reflexivity.
  now rewrite IH.
Qed.

Lemma map2_ext {A B C : Type} (f g : A -> B -> C) (l : list A) (l' : list B) :
  (forall a b, f a b = g a b) -> map2 f l l' = map2 g l l'.
Proof.
  intros H. revert l'. induction l as [|a l IH]; intros [|b l']; simpl; try reflexivity.
  now rewrite H, IH.
Qed.

Section CrossEntropy.

Variable logsumexp : vec -> scalar.

(** C2. For logits [x] of shape [M, C] and a soft target of shape [N, C]
    with [M = r * N], the soft-target cross-entropy returns the mean over
    the [M] rows of the sum over the classes of [-target * log_softmax(x)],
    row [i] of the logits meeting row [i mod N] of the target (the target
    tiled [r] times along axis 0); with [M = N] it is the standard soft
    cross-entropy. *)
Theorem CE_forward_spec (x target : mat) (M N C r : nat) :
  has_shape2 x M C = true ->
  has_shape2 target N C = true ->
  M = r * N ->
  CE_forward logsumexp x target
  = inr (soft_cross_entropy_spec logsumexp M N C x target)
  /\ (M = N ->
      CE_forward logsumexp x target
      = inr (standard_soft_cross_entropy logsumexp x target)).
Proof.
  intros Hx Ht HM.
  pose proof (CE_forward_unfold logsumexp x target M N C r Hx Ht HM) as HU.
  assert (HT : has_shape2 (tile0 r target) M C = true)
    by (subst M; now apply tile0_shape).
  pose proof (log_softmax_shape logsumexp x M C Hx) as HL.
  split.
  - rewrite HU. f_equal. unfold soft_cross_entropy_spec. f_equal.
    rewrite (map2_seq _ _ _ [] [] M)
      by (eapply has_shape2_length; eauto using neg_shape).
    rewrite map_map. apply map_ext_in. intros i Hi.
    apply in_seq in Hi. simpl in Hi.
    rewrite (map2_seq _ _ _ 0%Qc 0%Qc C)
      by (eapply has_shape2_nth; eauto using neg_shape; lia).
    f_equal. apply map_ext_in. intros j Hj. apply in_seq in Hj. simpl in Hj.
    rewrite (nth_neg _ i j M C HT) by lia.
    unfold entry. rewrite nth_tile0.
    + now rewrite (has_shape2_length _ _ _ Ht).
    + rewrite (has_shape2_length _ _ _ Ht). lia.
  - intros E. rewrite HU. f_equal. unfold standard_soft_cross_entropy. f_equal.
    assert (r = 1 \/ N = 0) as [-> | ->] by nia.
    + rewrite tile0_one. unfold neg.
      rewrite map_map2, map2_map_l. apply map2_ext. intros a b.
      now rewrite map2_map_l.
    + apply has_shape2_length in Ht. destruct target; [|discriminate].
      replace (tile0 r []) with (@nil (list Qc)); [reflexivity|].
      unfold tile0. clear. induction r; simpl; auto.
Qed.

End CrossEntropy.

(** ** Target decomposition, rank-2 targets *)

Lemma concat_map_concat {A B : Type} (f : A -> list (list B)) (l : list A) :
  concat (map (fun a => concat (f a)) l) = concat (concat (map f l)).
Proof.
  induction l as [|a l IH]; simpl; [reflexivity|].
  now rewrite concat_app, IH.
Qed.

Lemma repeat_rows_shape {A : Type} (N : nat) (t : list (list A)) (B C : nat) :
  has_shape2 t B C = true ->
  has_shape2 (concat (map (fun row => repeat row N) t)) (B * N) C = true.
Proof.
  intros H. apply has_shape2_intro.
  - rewrite (concat_length_uniform N).
    + now rewrite length_map, (has_shape2_length _ _ _ H).
    + intros r Hr. apply in_map_iff in Hr. destruct Hr as (row & <- & _).
      apply repeat_length.
  - intros r Hr. apply in_concat in Hr. destruct Hr as (rs & Hrs & Hr).
    apply in_map_iff in Hrs. destruct Hrs as (row & <- & Hrow).
    apply repeat_spec in Hr. subst r. eapply has_shape2_row; eauto.
Qed.

Lemma decompose_rank2 (gt : bool) (B N C : nat) (t : mat) :
  has_shape2 t B C = true ->
  decompose_target gt B N C (Rank2 t)
  = inr (t, concat (map (fun row => repeat row N) t)).
Proof.
  intros H. unfold decompose_target, tile1.
  rewrite (concat_map_concat (fun row => repeat row N)).
  rewrite (reshape_concat (B * N) C) by now apply repeat_rows_shape.
  reflexivity.
Qed.

(** C5. For a rank-2 target of shape [B, C] the classification target is
    the target itself, and the auxiliary target has shape [B * N, C], its
    row [b * N + n] being the whole-image label of sample [b] for every
    token [n]. *)
Theorem decompose_target_rank2 (gt : bool) (B N C : nat) (t : mat) :
  has_shape2 t B C = true ->
  exists target_aux,
    decompose_target gt B N C (Rank2 t) = inr (t, target_aux)
    /\ has_shape2 target_aux (B * N) C = true
    /\ forall b n, b < B -> n < N -> nth (b * N + n) target_aux [] = nth b t [].
Proof.
  intros H. exists (concat (map (fun row => repeat row N) t)).
  split; [now apply decompose_rank2|].
  split; [now apply repeat_rows_shape|].
  intros b n _ Hn. now apply nth_concat_repeat_rows.
Qed.

(** ** Region mixing *)

Lemma ltb_true (a b : scalar) : ltb a b = true <-> (a < b)%Qc.
Proof.
  unfold ltb. destruct (Qclt_le_dec a b) as [H|H]; split; intros H'; auto.
  - discriminate.
  - exfalso. exact (Qcle_not_lt _ _ H H').
Qed.

Lemma ltb_false (a b : scalar) : ltb a b = false <-> (b <= a)%Qc.
Proof.
  unfold ltb. destruct (Qclt_le_dec a b) as [H|H]; split; intros H'; auto.
  - discriminate.
  - exfalso. exact (Qcle_not_lt _ _ H' H).
Qed.

Lemma ltb_irrefl (a : scalar) : ltb a a = false.
Proof. apply ltb_false. apply Qcle_refl. Qed.

Lemma scale_shape (k : scalar) (t : mat) (R C : nat) :
  has_shape2 t R C = true -> has_shape2 (scale k t) R C = true.
Proof.
  intros H. apply has_shape2_intro.
  - unfold scale. rewrite length_map. eapply has_shape2_length; eauto.
  - intros r Hr. apply in_map_iff in Hr. destruct Hr as (r' & <- & Hr').
    rewrite length_map. eapply has_shape2_row; eauto.
Qed.

Lemma flip0_shape (t : mat) (R C : nat) :
  has_shape2 t R C = true -> has_shape2 (flip0 t) R C = true.
Proof.
  intros H. apply has_shape2_intro.
  - unfold flip0. rewrite length_rev. eapply has_shape2_length; eauto.
  - intros r Hr. apply in_rev in Hr. eapply has_shape2_row; eauto.
Qed.

Lemma add_shape (a b : mat) (R C : nat) :
  has_shape2 a R C = true -> has_shape2 b R C = true ->
  has_shape2 (add a b) R C = true.
Proof.
  intros Ha Hb. apply has_shape2_intro.
  - unfold add. rewrite map2_length.
    + exact (has_shape2_length _ _ _ Ha).
    + now rewrite (has_shape2_length _ _ _ Ha), (has_shape2_length _ _ _ Hb).
  - intros r Hr. apply map2_In in Hr. destruct Hr as (x & y & Hx & Hy & ->).
    rewrite map2_length.
    + exact (has_shape2_row _ _ _ _ Ha Hx).
    + now rewrite (has_shape2_row _ _ _ _ Ha Hx), (has_shape2_row _ _ _ _ Hb Hy).
Qed.

Lemma entry_scale (k : scalar) (t : mat) (R C i j : nat) :
  has_shape2 t R C = true -> i < R -> j < C ->
  entry (scale k t) i j = (k * entry t i j)%Qc.
Proof.
  intros H Hi Hj. unfold scale, entry.
  rewrite (nth_indep _ [] (map (Qcmult k) []))
    by (rewrite length_map, (has_shape2_length _ _ _ H); lia).
  rewrite (map_nth (map (Qcmult k))).
  rewrite (nth_indep _ 0%Qc (Qcmult k 0%Qc))
    by (rewrite length_map, (has_shape2_nth _ _ _ _ H Hi); lia).
  now rewrite (map_nth (Qcmult k)).
Qed.

Lemma entry_add (a b : mat) (R C i j : nat) :
  has_shape2 a R C = true -> has_shape2 b R C = true -> i < R -> j < C ->
  entry (add a b) i j = (entry a i j + entry b i j)%Qc.
Proof.
  intros Ha Hb Hi Hj. unfold add, entry.
  rewrite (map2_nth _ _ _ [] [] [])
    by (rewrite (has_shape2_length _ _ _ Ha), ?(has_shape2_length _ _ _ Hb); lia).
  apply map2_nth.
  - now rewrite (has_shape2_nth _ _ _ _ Ha Hi), (has_shape2_nth _ _ _ _ Hb Hi).
  - now rewrite (has_shape2_nth _ _ _ _ Ha Hi).
Qed.

Lemma entry_flip0 (t : mat) (R C i j : nat) :
  has_shape2 t R C = true -> i < R ->
  entry (flip0 t) i j = entry t (R - 1 - i) j.
Proof.
  intros H Hi. unfold flip0, entry.
  rewrite rev_nth by (rewrite (has_shape2_length _ _ _ H); lia).
  rewrite (has_shape2_length _ _ _ H).
  now replace (R - S i) with (R - 1 - i) by lia.
Qed.

Lemma mix_target_shape (lam : scalar) (t : mat) (R C : nat) :
  has_shape2 t R C = true -> has_shape2 (mix_target lam t) R C = true.
Proof.
  intros H. unfold mix_target. destruct (ltb lam 1); auto.
  apply add_shape; apply scale_shape; auto. now apply flip0_shape.
Qed.

(** C4. With [lam = 1 - (x2 - x1) * (y2 - y1) / N]: when [lam < 1] entry
    [(b, c)] of the classification target becomes
    [lam * target_cls[b][c] + (1 - lam) * target_cls[B - 1 - b][c]], the
    second operand being the batch-reversed target; when [lam = 1], as for a
    box of area zero, the classification target is left as it is. *)
Theorem mix_target_spec (x1 y1 x2 y2 : scalar) (N : nat) (target_cls : mat)
        (B C : nat) :
  has_shape2 target_cls B C = true ->
  1 <= N ->
  let lam := (1 - ((x2 - x1) * (y2 - y1) / of_nat N))%Qc in
  lam_of (x1, y1, x2, y2) N = inr lam
  /\ ((lam < 1)%Qc ->
      forall b c, b < B -> c < C ->
        entry (mix_target lam target_cls) b c
        = (lam * entry target_cls b c
           + (1 - lam) * entry target_cls (B - 1 - b) c)%Qc)
  /\ (lam = 1%Qc -> mix_target lam target_cls = target_cls)
  /\ (((x2 - x1) * (y2 - y1))%Qc = 0%Qc ->
      lam = 1%Qc /\ mix_target lam target_cls = target_cls).
Proof.
  intros H HN lam.
  assert (Hone : lam = 1%Qc -> mix_target lam target_cls = target_cls).
  { intros E. unfold mix_target. now rewrite E, ltb_irrefl. }
  split; [|split; [|split]].
  - unfold lam_of. destruct (Nat.eqb_spec N 0); [lia|reflexivity].
  - intros Hlt b c Hb Hc. unfold mix_target.
    apply ltb_true in Hlt. rewrite Hlt.
    rewrite (entry_add _ _ B C), !(entry_scale _ _ B C), (entry_flip0 _ B C);
      auto using scale_shape, flip0_shape.
  - exact Hone.
  - intros E. assert (E1 : lam = 1%Qc).
    { unfold lam. rewrite E. unfold Qcdiv. ring. }
    split; auto.
Qed.

(** ** Target decomposition, rank-3 targets *)

Lemma has_shape3_length {A : Type} (t : list (list (list A))) (B N C : nat) :
  has_shape3 t B N C = true -> length t = B.
Proof. intros H. now apply has_shape3_spec in H. Qed.

Lemma has_shape3_In {A : Type} (t : list (list (list A))) (B N C : nat)
      (m : list (list A)) :
  has_shape3 t B N C = true -> In m t -> has_shape2 m N C = true.
Proof.
  intros H Hm. apply has_shape3_spec in H. destruct H as [_ H].
  rewrite Forall_forall in H. auto.
Qed.

Lemma has_shape3_nth {A : Type} (t : list (list (list A))) (B N C b : nat) :
  has_shape3 t B N C = true -> b < B -> has_shape2 (nth b t []) N C = true.
Proof.
  intros H Hb. eapply has_shape3_In; eauto.
  apply nth_In. now rewrite (has_shape3_length _ _ _ _ H).
Qed.

Lemma select_last_ok (i : nat) (t : cube) (B C K : nat) :
  has_shape3 t B C K = true -> i < K ->
  select_last i t = inr (map (map (fun v : vec => nth i v 0%Qc)) t).
Proof.
  intros H Hi. unfold select_last.
  replace (forallb _ t) with true; [reflexivity|].
  symmetry. apply forallb_forall. intros m Hm.
  apply forallb_forall. intros v Hv. apply Nat.ltb_lt.
  rewrite (has_shape2_row _ _ _ _ (has_shape3_In _ _ _ _ _ H Hm) Hv). exact Hi.
Qed.

Lemma select_shape (i : nat) (t : cube) (B C K : nat) :
  has_shape3 t B C K = true ->
  has_shape2 (map (map (fun v : vec => nth i v 0%Qc)) t) B C = true.
Proof.
  intros H. apply has_shape2_intro.
  - rewrite length_map. eapply has_shape3_length; eauto.
  - intros r Hr. apply in_map_iff in Hr. destruct Hr as (m & <- & Hm).
    rewrite length_map. exact (has_shape2_length _ _ _ (has_shape3_In _ _ _ _ _ H Hm)).
Qed.

Lemma entry_select (i : nat) (t : cube) (B C K b c : nat) :
  has_shape3 t B C K = true -> b < B -> c < C ->
  entry (map (map (fun v : vec => nth i v 0%Qc)) t) b c = entry3 t b c i.
Proof.
  intros H Hb Hc. unfold entry, entry3.
  rewrite (nth_indep _ [] (map (fun v : vec => nth i v 0%Qc) []))
    by (rewrite length_map, (has_shape3_length _ _ _ _ H); lia).
  rewrite (map_nth (map (fun v : vec => nth i v 0%Qc))).
  rewrite (nth_indep _ 0%Qc ((fun v : vec => nth i v 0%Qc) []))
    by (rewrite length_map, (has_shape2_length _ _ _ (has_shape3_nth _ _ _ _ _ H Hb)); lia).
  now rewrite (map_nth (fun v : vec => nth i v 0%Qc)).
Qed.

Lemma mapM_argmax (m : mat) (R C : nat) :
  has_shape2 m R C = true -> 1 <= C ->
  mapM argmax m = inr (map argmax_index m).
Proof.
  intros H HC. apply mapM_total. intros row Hrow.
  pose proof (has_shape2_row _ _ _ _ H Hrow) as HL.
  destruct row; [simpl in HL; lia|reflexivity].
Qed.

Lemma mapM_max_value (m : mat) (R C : nat) :
  has_shape2 m R C = true -> 1 <= C ->
  mapM max_value m = inr (map row_max m).
Proof.
  intros H HC. apply mapM_total. intros row Hrow.
  pose proof (has_shape2_row _ _ _ _ H Hrow) as HL.
  destruct row; [simpl in HL; lia|reflexivity].
Qed.

Lemma item1_nth {A : Type} (d : A) (l : list A) :
  2 <= length l -> item1 l = inr (nth 1 l d).
Proof.
  destruct l as [|a [|b l]]; simpl; intros H; try lia. reflexivity.
Qed.

Lemma scale_by_shape (t : mat) (r : scalar) (R C : nat) :
  has_shape2 t R C = true -> has_shape2 (scale_by t r) R C = true.
Proof.
  intros H. apply has_shape2_intro.
  - unfold scale_by. rewrite length_map. exact (has_shape2_length _ _ _ H).
  - intros row Hrow. apply in_map_iff in Hrow. destruct Hrow as (x & <- & Hx).
    rewrite length_map. exact (has_shape2_row _ _ _ _ H Hx).
Qed.

Lemma entry_scale_by (t : mat) (r : scalar) (R C i j : nat) :
  has_shape2 t R C = true -> i < R -> j < C ->
  entry (scale_by t r) i j = (entry t i j * r)%Qc.
Proof.
  intros H Hi Hj. unfold scale_by, entry.
  rewrite (nth_indep _ [] (map (fun v => (v * r)%Qc) []))
    by (rewrite length_map, (has_shape2_length _ _ _ H); lia).
  rewrite (map_nth (map (fun v => (v * r)%Qc))).
  rewrite (nth_indep _ 0%Qc ((fun v => (v * r)%Qc) 0%Qc))
    by (rewrite length_map, (has_shape2_nth _ _ _ _ H Hi); lia).
  now rewrite (map_nth (fun v => (v * r)%Qc)).
Qed.

Lemma transpose_shape {A : Type} (d : A) (cols : nat) (m : list (list A)) :
  has_shape2 (transpose d cols m) cols (length m) = true.
Proof.
  apply has_shape2_intro.
  - unfold transpose. now rewrite length_map, length_seq.
  - intros r Hr. apply in_map_iff in Hr. destruct Hr as (j & <- & _).
    now rewrite length_map.
Qed.

Lemma slice_shape (i : nat) (t : cube) (B C K : nat) :
  has_shape3 t B C K = true -> has_shape3 (slice_last_from i t) B C (K - i) = true.
Proof.
  intros H. apply has_shape3_spec. split.
  - unfold slice_last_from. rewrite length_map. eapply has_shape3_length; eauto.
  - apply Forall_forall. intros m Hm. apply in_map_iff in Hm.
    destruct Hm as (m' & <- & Hm'). apply has_shape2_intro.
    + rewrite length_map. exact (has_shape2_length _ _ _ (has_shape3_In _ _ _ _ _ H Hm')).
    + intros r Hr. apply in_map_iff in Hr. destruct Hr as (v & <- & Hv).
      rewrite length_skipn.
      now rewrite (has_shape2_row _ _ _ _ (has_shape3_In _ _ _ _ _ H Hm') Hv).
Qed.

Lemma transpose021_eq (t : cube) (B C N : nat) :
  has_shape3 t B C N = true -> 1 <= C ->
  transpose021 t = map (transpose 0%Qc N) t.
Proof.
  intros H HC. unfold transpose021. destruct t as [|m t]; [reflexivity|].
  assert (Hm : has_shape2 m C N = true)
    by (eapply has_shape3_In; eauto; now left).
  simpl hd. now rewrite (has_shape2_hd _ _ _ Hm HC).
Qed.

Lemma transposed_shape (t : cube) (B C N : nat) :
  has_shape3 t B C N = true ->
  has_shape2 (concat (map (transpose 0%Qc N) t)) (B * N) C = true.
Proof.
  intros H. apply has_shape2_intro.
  - rewrite (concat_length_uniform N).
    + now rewrite length_map, (has_shape3_length _ _ _ _ H).
    + intros r Hr. apply in_map_iff in Hr. destruct Hr as (m & <- & _).
      exact (has_shape2_length _ _ _ (transpose_shape 0%Qc N m)).
  - intros r Hr. apply in_concat in Hr. destruct Hr as (rs & Hrs & Hr).
    apply in_map_iff in Hrs. destruct Hrs as (m & <- & Hm).
    rewrite (has_shape2_row _ _ _ _ (transpose_shape 0%Qc N m) Hr).
    exact (has_shape2_length _ _ _ (has_shape3_In _ _ _ _ _ H Hm)).
Qed.

Lemma entry_transposed (t : cube) (B C N b n c : nat) :
  has_shape3 t B C N = true -> b < B -> n < N -> c < C ->
  entry (concat (map (transpose 0%Qc N) t)) (b * N + n) c = entry3 t b c n.
Proof.
  intros H Hb Hn Hc. unfold entry, entry3.
  rewrite (nth_concat_uniform N).
  - rewrite (nth_indep _ [] (transpose 0%Qc N []))
      by (rewrite length_map, (has_shape3_length _ _ _ _ H); lia).
    rewrite (map_nth (transpose 0%Qc N)). unfold transpose.
    rewrite (nth_indep _ [] ((fun j => map (fun r : vec => nth j r 0%Qc) (nth b t [])) 0))
      by (rewrite length_map, length_seq; lia).
    rewrite (map_nth (fun j => map (fun r : vec => nth j r 0%Qc) (nth b t []))).
    rewrite seq_nth by lia. simpl.
    rewrite (nth_indep _ 0%Qc ((fun r : vec => nth n r 0%Qc) []))
      by (rewrite length_map, (has_shape2_length _ _ _ (has_shape3_nth _ _ _ _ _ H Hb)); lia).
    now rewrite (map_nth (fun r : vec => nth n r 0%Qc)).
  - intros r Hr. apply in_map_iff in Hr. destruct Hr as (m & <- & _).
    exact (has_shape2_length _ _ _ (transpose_shape 0%Qc N m)).
  - exact Hn.
Qed.

Lemma entry3_slice (i : nat) (t : cube) (b c k : nat) (B C K : nat) :
  has_shape3 t B C K = true -> b < B -> c < C ->
  entry3 (slice_last_from i t) b c k = entry3 t b c (i + k).
Proof.
  intros H Hb Hc. unfold entry3, slice_last_from.
  rewrite (nth_indep _ [] (map (skipn i) []))
    by (rewrite length_map, (has_shape3_length _ _ _ _ H); lia).
  rewrite (map_nth (map (skipn i))).
  rewrite (nth_indep _ [] (skipn i []))
    by (rewrite length_map, (has_shape2_length _ _ _ (has_shape3_nth _ _ _ _ _ H Hb)); lia).
  rewrite (map_nth (skipn i)). apply nth_skipn.
Qed.

Lemma slice2_shape (t : cube) (B N C : nat) :
  has_shape3 t B C (N + 2) = true ->
  has_shape3 (slice_last_from 2 t) B C N = true.
Proof.
  intros H. pose proof (slice_shape 2 t B C (N + 2) H) as H'.
  now replace (N + 2 - 2) with N in H' by lia.
Qed.

Lemma aux_reshape (t : cube) (B N C : nat) :
  has_shape3 t B C (N + 2) = true -> 1 <= C ->
  reshape_infer C (concat (concat (transpose021 (slice_last_from 2 t))))
  = inr (concat (map (transpose 0%Qc N) (slice_last_from 2 t))).
Proof.
  intros H HC. pose proof (slice2_shape t B N C H) as HS.
  rewrite (transpose021_eq _ B C N HS HC).
  apply (reshape_infer_concat (B * N) C); auto. now apply transposed_shape.
Qed.

Lemma nth_map_map {A B : Type} (f : A -> B) (t : list (list A)) (b : nat) :
  nth b (map (map f) t) [] = map f (nth b t []).
Proof. exact (map_nth (map f) t [] b). Qed.

(** The value that [t[:, :, i].max(-1)[1]] picks: the largest entry of slice
    [i] of sample 1. *)
Lemma slice_max_item1 (i : nat) (t : cube) (B C K : nat) :
  has_shape3 t B C K = true -> 1 <= C -> 2 <= B ->
  bind (mapM max_value (map (map (fun v : vec => nth i v 0%Qc)) t)) item1
  = inr (row_max (map (fun v : vec => nth i v 0%Qc) (nth 1 t []))).
Proof.
  intros H HC HB.
  rewrite (mapM_max_value _ B C (select_shape i t B C K H) HC). cbn [bind].
  rewrite (item1_nth 0%Qc)
    by (rewrite !length_map, (has_shape3_length _ _ _ _ H); exact HB).
  f_equal. rewrite (map_nth row_max _ []). now rewrite nth_map_map.
Qed.

Lemma decompose_rank3 (gt : bool) (B N C : nat) (t : cube) :
  has_shape3 t B C (N + 2) = true -> 1 <= C ->
  (gt = true -> 2 <= B) ->
  exists target_cls target_aux,
    decompose_target gt B N C (Rank3 t) = inr (target_cls, target_aux)
    /\ has_shape2 target_cls B C = true
    /\ has_shape2 target_aux (B * N) C = true
    /\ (forall b n c, b < B -> n < N -> c < C ->
          entry target_aux (b * N + n) c = entry3 t b c (2 + n))
    /\ (forall b c, b < B -> c < C ->
          entry target_cls b c
          = if gt then
              let ratio :=
                ratio_of
                  (row_max (map (fun v : vec => nth 0 v 0%Qc) (nth 1 t [])))
                  (row_max (map (fun v : vec => nth 1 v 0%Qc) (nth 1 t []))) in
              (entry3 t b c 1 * ratio + entry3 t b c 0 * (1 - ratio))%Qc
            else entry3 t b c 1).
Proof.
  intros H HC HB.
  pose proof (select_shape 0 t B C _ H) as H0.
  pose proof (select_shape 1 t B C _ H) as H1.
  pose proof (slice2_shape t B N C H) as HS.
  pose proof (has_shape3_length _ _ _ _ H) as HL.
  unfold decompose_target.
  rewrite (select_last_ok 1 t B C (N + 2) H) by lia. cbn [bind].
  destruct gt.
  - specialize (HB eq_refl).
    rewrite (select_last_ok 0 t B C (N + 2) H) by lia. cbn [bind].
    pose proof (slice_max_item1 0 t B C (N + 2) H HC HB) as E0.
    pose proof (slice_max_item1 1 t B C (N + 2) H HC HB) as E1.
    rewrite (mapM_max_value _ B C H0 HC) in E0 |- *.
    rewrite (mapM_max_value _ B C H1 HC) in E1 |- *.
    cbn [bind] in E0, E1 |- *. rewrite E0. cbn [bind]. rewrite E1. cbn [bind ret].
    rewrite (aux_reshape t B N C H HC). cbn [bind].
    set (ratio := ratio_of _ _).
    eexists _, _. split; [reflexivity|].
    split; [|split; [|split]].
    + apply add_shape; now apply scale_by_shape.
    + now apply transposed_shape.
    + intros b n c Hb Hn Hc.
      rewrite (entry_transposed _ B C N) by auto.
      apply (entry3_slice 2 t b c n B C (N + 2)); auto.
    + intros b c Hb Hc.
      rewrite (entry_add _ _ B C) by (auto using scale_by_shape).
      rewrite !(entry_scale_by _ _ B C) by auto.
      now rewrite !(entry_select _ t B C (N + 2)) by auto.
  - cbn [bind ret]. rewrite (aux_reshape t B N C H HC). cbn [bind].
    eexists _, _. split; [reflexivity|].
    split; [|split; [|split]]; auto.
    + now apply transposed_shape.
    + intros b n c Hb Hn Hc.
      rewrite (entry_transposed _ B C N) by auto.
      apply (entry3_slice 2 t b c n B C (N + 2)); auto.
    + intros b c Hb Hc. now apply (entry_select 1 t B C (N + 2)).
Qed.

(** C3, what the code does. With ground-truth correction on, the ratio is
    computed once for the batch, from the largest values of the two slices
    of sample 1.  On [sample_target3] the argmax of the two slices of sample
    0 agree (class 4), and its classification target at that class is
    [0.9 * 0.6 + 0.1 * 1 = 0.64], blended with ratio 9/10, not the
    [0.5 * 0.6 + 0.5 * 1] of a ratio 1/2; on a batch of a single sample the
    decomposition, and with it [LVViTLoss.forward], raises [IndexError]. *)
Theorem decompose_target_ground_truth :
  argmax_index (map (fun v : vec => nth 0 v 0%Qc) (nth 0 sample_target3 []))
  = argmax_index (map (fun v : vec => nth 1 v 0%Qc) (nth 0 sample_target3 []))
  /\ (exists target_cls target_aux,
        decompose_target true 2 2 5 (Rank3 sample_target3)
        = inr (target_cls, target_aux)
        /\ entry target_cls 0 4 = q 64 100
        /\ entry target_cls 0 4 <> (q 1 2 * q 6 10 + (1 - q 1 2) * q 1 1)%Qc)
  /\ has_shape3 sample_target3_single 1 5 4 = true
  /\ decompose_target true 1 2 5 (Rank3 sample_target3_single) = inl IndexError
  /\ (forall logsumexp,
        LVViTLoss_forward logsumexp sample_loss_gt
                          (tokens_first_output, tokens_first_aux, sample_bbox)
                          (Rank3 sample_target3_single)
        = inl IndexError).
Proof.
  split; [reflexivity|]. split; [|split; [reflexivity|split; [reflexivity|]]].
  2:{ intros logsumexp. reflexivity. }
  eexists _, _. split; [reflexivity|]. split.
  - apply Qc_is_canon. reflexivity.
  - intros E. apply (f_equal this) in E. vm_compute in E. discriminate E.
Qed.

(** ** Sums *)

Lemma sum_app (u v : vec) : sum (u ++ v) = (sum u + sum v)%Qc.
Proof.
  induction u as [|a u IH]; simpl.
  - ring.
  - unfold sum in *. simpl. rewrite IH. ring.
Qed.

Lemma sum_concat (m : mat) : sum (concat m) = sum (map sum m).
Proof.
  induction m as [|r m IH]; simpl; [reflexivity|].
  rewrite sum_app, IH. reflexivity.
Qed.

Lemma sum_map_plus {A : Type} (f g : A -> scalar) (l : list A) :
  sum (map (fun a => (f a + g a)%Qc) l) = (sum (map f l) + sum (map g l))%Qc.
Proof.
  induction l as [|a l IH]; simpl.
  - unfold sum. simpl. ring.
  - unfold sum in *. simpl. rewrite IH. ring.
Qed.

Lemma sum_map_zero {A : Type} (l : list A) :
  sum (map (fun _ => 0%Qc) l) = 0%Qc.
Proof.
  induction l as [|a l IH]; simpl; [reflexivity|].
  unfold sum in *. simpl. rewrite IH. ring.
Qed.

Lemma sum_swap {A B : Type} (f : A -> B -> scalar) (la : list A) (lb : list B) :
  sum (map (fun a => sum (map (fun b => f a b) lb)) la)
  = sum (map (fun b => sum (map (fun a => f a b) la)) lb).
Proof.
  induction la as [|a la IH]; simpl.
  - now rewrite sum_map_zero.
  - rewrite sum_map_plus, <- IH. reflexivity.
Qed.

Lemma sum_indicator {A : Type} (f : A -> bool) (l : list A) :
  sum (map (fun a => if f a then 1%Qc else 0%Qc) l) = of_nat (length (filter f l)).
Proof.
  induction l as [|a l IH]; simpl.
  - symmetry. apply of_nat_0.
  - unfold sum in *. simpl. rewrite IH. destruct (f a); simpl.
    + rewrite of_nat_S. ring.
    + ring.
Qed.

Lemma sum_hit (t : nat) (l : list nat) :
  NoDup l ->
  sum (map (fun p => hit p t) l) = if existsb (Nat.eqb t) l then 1%Qc else 0%Qc.
Proof.
  induction 1 as [|p l Hp Hl IH]; simpl; [reflexivity|].
  unfold sum in *. simpl. rewrite IH. unfold hit.
  destruct (Nat.eqb_spec p t) as [E|E].
  - subst p. rewrite Nat.eqb_refl. simpl.
    replace (existsb (Nat.eqb t) l) with false; [ring|].
    symmetry. apply not_true_is_false. intros Hex.
    apply existsb_exists in Hex. destruct Hex as (x & Hx & Ex).
    apply Nat.eqb_eq in Ex. subst x. contradiction.
  - replace (t =? p) with false by (symmetry; apply Nat.eqb_neq; congruence).
    simpl. ring.
Qed.

(** ** Ranking *)

Lemma insert_desc_perm (p : Qc * nat) (l : list (Qc * nat)) :
  Permutation (insert_desc p l) (p :: l).
Proof.
  induction l as [|p' l IH]; simpl; [reflexivity|].
  destruct (ltb (fst p) (fst p')); [|reflexivity].
  rewrite IH. apply perm_swap.
Qed.

Lemma sort_desc_perm (l : list (Qc * nat)) : Permutation (sort_desc l) l.
Proof.
  induction l as [|p l IH]; simpl; [reflexivity|].
  rewrite insert_desc_perm. now constructor.
Qed.

Lemma map_snd_combine {A B : Type} (l : list A) (l' : list B) :
  length l = length l' -> map snd (combine l l') = l'.
Proof.
  revert l'. induction l as [|a l IH]; intros [|b l'] H; simpl in *;
    try discriminate; try reflexivity.
  f_equal. apply IH. lia.
Qed.

Lemma ranking_perm (row : vec) : Permutation (ranking row) (seq 0 (length row)).
Proof.
  unfold ranking. rewrite sort_desc_perm.
  rewrite map_snd_combine; [reflexivity|]. now rewrite length_seq.
Qed.

Lemma ranking_NoDup (row : vec) : NoDup (ranking row).
Proof.
  eapply Permutation_NoDup; [symmetry; apply ranking_perm|]. apply seq_NoDup.
Qed.

Lemma ranking_length (row : vec) : length (ranking row) = length row.
Proof. rewrite (Permutation_length (ranking_perm row)). apply length_seq. Qed.

Lemma NoDup_firstn {A : Type} (k : nat) (l : list A) : NoDup l -> NoDup (firstn k l).
Proof.
  intros H. rewrite <- (firstn_skipn k l) in H. now apply NoDup_app_remove_r in H.
Qed.

Lemma firstn_as_nth {A : Type} (d : A) (k : nat) (l : list A) :
  k <= length l -> map (fun j => nth j l d) (seq 0 k) = firstn k l.
Proof.
  revert k. induction l as [|a l IH]; intros k Hk; simpl in *.
  - assert (k = 0) by lia. now subst.
  - destruct k; [reflexivity|]. simpl. f_equal.
    rewrite <- seq_shift, map_map. apply IH. lia.
Qed.

Lemma topk_row_ok (k : nat) (row : vec) :
  1 <= k -> k <= length row -> topk_row k row = inr (firstn k (ranking row)).
Proof.
  intros H1 H2. unfold topk_row.
  apply Nat.leb_le in H1, H2. now rewrite H1, H2.
Qed.

Lemma list_max_ge (l : list nat) (k : nat) : In k l -> k <= list_max l.
Proof.
  intros H. pose proof (proj1 (list_max_le l (list_max l)) (Nat.le_refl _)) as HF.
  rewrite Forall_forall in HF. auto.
Qed.

Lemma combine_map_l {A A' B : Type} (f : A -> A') (l : list A) (l' : list B) :
  combine (map f l) l' = map (fun p => (f (fst p), snd p)) (combine l l').
Proof.
  revert l'. induction l as [|a l IH]; intros [|b l']; simpl; try reflexivity.
  now rewrite IH.
Qed.

Lemma firstn_seq_le (s k n : nat) : k <= n -> firstn k (seq s n) = seq s k.
Proof.
  revert s n. induction k as [|k IH]; intros s n H; [reflexivity|].
  destruct n; [lia|]. simpl. f_equal. apply IH. lia.
Qed.

(** The number of correct predictions among the first [k] ranks, as
    [accuracy] adds it up, is the number of rows hit. *)
Lemma correct_k_hits (output : mat) (idx : list nat) (maxk k : nat) (B C : nat) :
  has_shape2 output B C = true -> k <= maxk -> maxk <= C ->
  sum (concat (firstn k
        (map (fun row => map2 hit row idx)
             (transpose 0 maxk (map (fun row => firstn maxk (ranking row)) output)))))
  = of_nat (hits k output idx).
Proof.
  intros Ho Hk Hm. unfold transpose.
  rewrite map_map, firstn_map, firstn_seq_le by exact Hk.
  rewrite sum_concat, map_map.
  erewrite map_ext.
  2:{ intros j. rewrite map2_map_l, map2_combine, combine_map_l, map_map.
      cbn [fst snd]. reflexivity. }
  rewrite (sum_swap (fun j p => hit (nth j (firstn maxk (ranking (fst p))) 0) (snd p))).
  unfold hits. rewrite <- sum_indicator. f_equal.
  apply map_ext_in. intros [row t] Hp. cbn [fst snd].
  assert (Hrow : length row = C)
    by (eapply has_shape2_row; eauto; eapply in_combine_l; eauto).
  rewrite <- (map_map (fun j => nth j (firstn maxk (ranking row)) 0)
                      (fun p => hit p t)).
  rewrite firstn_as_nth
    by (rewrite length_firstn, ranking_length, Hrow; lia).
  rewrite firstn_firstn, Nat.min_l by exact Hk.
  rewrite sum_hit by (apply NoDup_firstn, ranking_NoDup).
  reflexivity.
Qed.

(** ** The accuracy metric *)

Lemma class_indices_ok (tg : labels) (B C : nat) :
  labels_fit tg B C = true -> 1 <= C ->
  exists idx, class_indices tg = inr idx /\ length idx = B
              /\ forall t, tg = SoftLabel t -> idx = map argmax_index t.
Proof.
  intros H HC. destruct tg as [t|t]; simpl in *.
  - exists t. split; [reflexivity|]. split; [now apply Nat.eqb_eq|discriminate].
  - exists (map argmax_index t). split; [now apply (mapM_argmax t B C)|].
    split; [now rewrite length_map, (has_shape2_length _ _ _ H)|].
    intros t' E. now inversion E.
Qed.

Lemma expand_as_same (cols : nat) (t : list nat) :
  length t = cols -> expand_as cols t = inr t.
Proof. intros H. unfold expand_as. now rewrite H, Nat.eqb_refl. Qed.

Lemma hits_le (k : nat) (output : mat) (idx : list nat) :
  hits k output idx <= length output.
Proof.
  unfold hits. etransitivity; [apply filter_length_le|].
  rewrite length_combine. apply Nat.le_min_l.
Qed.

Lemma mapM_inr {A B : Type} (f : A -> res B) (l : list A) (l' : list B) :
  mapM f l = inr l' -> Forall2 (fun a b => f a = inr b) l l'.
Proof.
  revert l'. induction l as [|a l IH]; intros l' H; simpl in H.
  - inversion H. constructor.
  - destruct (f a) as [e|b] eqn:Ea; simpl in H; [discriminate|].
    destruct (mapM f l) as [e|bs]; simpl in H; [discriminate|].
    inversion H; subst. constructor; auto.
Qed.

Lemma hits_all (output : mat) (idx : list nat) :
  mapM (topk_row 1) output = inr (map (fun c => [c]) idx) ->
  hits 1 output idx = length output.
Proof.
  intros H. apply mapM_inr in H. unfold hits.
  revert idx H. induction output as [|row output IH]; intros idx H.
  - reflexivity.
  - destruct idx as [|t idx]; inversion H as [|? ? ? ? Hrow Hrest]; subst.
    simpl. unfold in_topk at 1. cbn [fst snd].
    unfold topk_row in Hrow.
    destruct ((1 <=? 1) && (1 <=? length row))%bool; [|discriminate].
    unfold ret in Hrow.
    assert (E : firstn 1 (ranking row) = [t]) by congruence.
    rewrite E. simpl. rewrite Nat.eqb_refl. simpl.
    f_equal. now apply IH.
Qed.

Lemma accuracy_unfold (output : mat) (tg : labels) (topk : list nat)
      (idx : list nat) (B C : nat) :
  has_shape2 output B C = true ->
  class_indices tg = inr idx -> length idx = B ->
  1 <= list_max topk -> list_max topk <= C ->
  accuracy output tg topk
  = inr (map (fun k => (of_nat (hits k output idx) * q 100 1 / of_nat B)%Qc) topk).
Proof.
  intros Ho Hidx HL H1 HC. unfold accuracy.
  assert (Hmax : match topk with
                 | [] => raise (ValueError "max() arg is an empty sequence")
                 | _ :: _ => ret (list_max topk)
                 end = inr (list_max topk)).
  { destruct topk; [simpl in H1; lia|reflexivity]. }
  rewrite Hmax. cbn [bind].
  change (match tg with
          | ClassIndex t => ret t
          | SoftLabel t => mapM argmax t
          end) with (class_indices tg).
  rewrite Hidx. cbn [bind].
  rewrite (mapM_total (topk_row (list_max topk))
                      (fun row => firstn (list_max topk) (ranking row))).
  2:{ intros row Hrow. apply topk_row_ok; auto.
      now rewrite (has_shape2_row _ _ _ _ Ho Hrow). }
  cbn [bind].
  rewrite expand_as_same by now rewrite (has_shape2_length _ _ _ Ho).
  cbn [bind]. unfold ret. f_equal. rewrite HL.
  apply map_ext_in. intros k Hk.
  rewrite (correct_k_hits output idx (list_max topk) k B C); auto.
  now apply list_max_ge.
Qed.

(** C7, as the code has it. For logits of shape [B, C] with [B >= 1], a target of [B] class
    indices or a soft target of shape [B, C], and a set of ranks whose
    largest lies between 1 and [C]: [accuracy] returns one value per rank,
    in the order of the ranks, the value for rank [k] being the number of
    rows whose class is among the top [k] predictions, times 100, over [B];
    each value lies between 0 and 100; a soft target is first reduced to the
    argmax of each of its rows; and when the class of every row is the
    top-1 prediction of that row, the value for rank 1 is 100. *)
Theorem accuracy_spec (output : mat) (tg : labels) (topk : list nat) (B C : nat) :
  has_shape2 output B C = true ->
  labels_fit tg B C = true ->
  1 <= B ->
  1 <= list_max topk ->
  list_max topk <= C ->
  exists idx res,
    class_indices tg = inr idx
    /\ (forall t, tg = SoftLabel t -> idx = map argmax_index t)
    /\ accuracy output tg topk = inr res
    /\ length res = length topk
    /\ res = map (fun k => (of_nat (hits k output idx) * q 100 1 / of_nat B)%Qc) topk
    /\ Forall (fun v => (0 <= v)%Qc /\ (v <= q 100 1)%Qc) res
    /\ (mapM (topk_row 1) output = inr (map (fun c => [c]) idx) ->
        (of_nat (hits 1 output idx) * q 100 1 / of_nat B)%Qc = q 100 1).
Proof.
  intros Ho Hfit HB H1 HC.
  destruct (class_indices_ok tg B C Hfit) as (idx & Hidx & HL & Hsoft); [lia|].
  exists idx. eexists. split; [exact Hidx|]. split; [exact Hsoft|].
  split; [apply (accuracy_unfold output tg topk idx B C); auto|].
  split; [now rewrite length_map|]. split; [reflexivity|]. split.
  - apply Forall_forall. intros v Hv. apply in_map_iff in Hv.
    destruct Hv as (k & <- & _). apply percent_range; auto.
    rewrite <- (has_shape2_length _ _ _ Ho). apply hits_le.
  - intros Htop. rewrite (hits_all output idx Htop), (has_shape2_length _ _ _ Ho).
    now apply percent_full.
Qed.

(** ** The token-labeling loss *)

Lemma concat_shape {A : Type} (t : list (list (list A))) (B N C : nat) :
  has_shape3 t B N C = true -> has_shape2 (concat t) (B * N) C = true.
Proof.
  intros H. apply has_shape2_intro.
  - rewrite (concat_length_uniform N).
    + now rewrite (has_shape3_length _ _ _ _ H).
    + intros m Hm. exact (has_shape2_length _ _ _ (has_shape3_In _ _ _ _ _ H Hm)).
  - intros r Hr. apply in_concat in Hr. destruct Hr as (m & Hm & Hr).
    exact (has_shape2_row _ _ _ _ (has_shape3_In _ _ _ _ _ H Hm) Hr).
Qed.

Lemma decompose_target_shapes (gt : bool) (B N C : nat) (tg : target) :
  target_fits tg B N C = true -> 1 <= C ->
  no_correction gt tg = true ->
  exists target_cls target_aux,
    decompose_target gt B N C tg = inr (target_cls, target_aux)
    /\ has_shape2 target_cls B C = true
    /\ has_shape2 target_aux (B * N) C = true.
Proof.
  intros H HC Hn. destruct tg as [t|t]; simpl in H.
  - exists t, (concat (map (fun row => repeat row N) t)).
    split; [now apply decompose_rank2|]. split; [exact H|].
    now apply repeat_rows_shape.
  - unfold no_correction in Hn. rewrite orb_false_r in Hn.
    destruct gt; [discriminate|].
    destruct (decompose_rank3 false B N C t H HC) as (c & a & Hd & Hc & Ha & _);
      [discriminate|].
    exists c, a. auto.
Qed.

Lemma lam_of_ok (bb : bbox) (N : nat) :
  1 <= N -> exists lam, lam_of bb N = inr lam.
Proof.
  intros HN. destruct bb as [[[x1 y1] x2] y2]. unfold lam_of.
  destruct (Nat.eqb_spec N 0); [lia|]. eexists. reflexivity.
Qed.

Section TokenLabelingLoss.

Variable logsumexp : vec -> scalar.

Lemma CE_forward_ok (x target : mat) (M C : nat) :
  has_shape2 x M C = true -> has_shape2 target M C = true ->
  exists l, CE_forward logsumexp x target = inr l.
Proof.
  intros Hx Ht. eexists.
  apply (CE_forward_unfold logsumexp x target M M C 1 Hx Ht). lia.
Qed.

(** C1, as the code has it. For classification logits of shape [B, C],
    auxiliary logits of shape [B, N, C] and a target that fits them, with
    [B >= 1], [N >= 1] and [C >= 5] (the top-5 accuracy ranks five
    classes), on a call without ground-truth correction (the flag off, or a
    rank-2 target), [LVViTLoss.forward]
    returns a mapping with exactly the keys [loss], [acc1], [acc5], where
    [loss] is [cls_weight * loss_cls + dense_weight * loss_aux], [loss_cls]
    the soft-target cross-entropy of the classification logits against the
    decomposed and mixed classification target, and [loss_aux] that of the
    auxiliary logits flattened to [B * N, C] against the auxiliary target. *)
Theorem LVViTLoss_forward_spec (self : LVViTLoss) (output : mat) (aux_output : cube)
        (bb : bbox) (tg : target) (B N C : nat) :
  has_shape2 output B C = true ->
  has_shape3 aux_output B N C = true ->
  target_fits tg B N C = true ->
  no_correction (ground_truth self) tg = true ->
  1 <= B -> 1 <= N -> 5 <= C ->
  exists target_cls target_aux lam loss_cls loss_aux acc1 acc5 losses,
    decompose_target (ground_truth self) B N C tg = inr (target_cls, target_aux)
    /\ lam_of bb N = inr lam
    /\ has_shape2 (concat aux_output) (B * N) C = true
    /\ CE_forward logsumexp output (mix_target lam target_cls) = inr loss_cls
    /\ CE_forward logsumexp (concat aux_output) target_aux = inr loss_aux
    /\ accuracy output (SoftLabel (mix_target lam target_cls)) [1; 5]
       = inr [acc1; acc5]
    /\ LVViTLoss_forward logsumexp self (output, aux_output, bb) tg = inr losses
    /\ keys losses = ["loss"; "acc1"; "acc5"]%string
    /\ losses = [("loss"%string,
                  (cls_weight self * loss_cls + dense_weight self * loss_aux)%Qc);
                 ("acc1"%string, acc1); ("acc5"%string, acc5)].
Proof.
  intros Ho Ha Ht Hn HB HN HC.
  destruct (decompose_target_shapes (ground_truth self) B N C tg Ht)
    as (target_cls & target_aux & Hd & Hcls & Haux); [lia|exact Hn|].
  destruct (lam_of_ok bb N HN) as (lam & Hlam).
  pose proof (mix_target_shape lam target_cls B C Hcls) as Hmix.
  pose proof (concat_shape aux_output B N C Ha) as Hflat.
  destruct (CE_forward_ok output (mix_target lam target_cls) B C Ho Hmix)
    as (loss_cls & Hlc).
  destruct (CE_forward_ok (concat aux_output) target_aux (B * N) C Hflat Haux)
    as (loss_aux & Hla).
  assert (Hidx : class_indices (SoftLabel (mix_target lam target_cls))
                 = inr (map argmax_index (mix_target lam target_cls)))
    by (apply (mapM_argmax _ B C Hmix); lia).
  assert (Hacc := accuracy_unfold output (SoftLabel (mix_target lam target_cls))
                    [1; 5] _ B C Ho Hidx).
  rewrite length_map, (has_shape2_length _ _ _ Hmix) in Hacc.
  specialize (Hacc eq_refl). simpl list_max in Hacc.
  specialize (Hacc ltac:(lia) HC). cbn [map] in Hacc.
  do 7 eexists. eexists.
  split; [exact Hd|]. split; [exact Hlam|]. split; [exact Hflat|].
  split; [exact Hlc|]. split; [exact Hla|]. split; [exact Hacc|].
  split; [|split; [|reflexivity]].
  - unfold LVViTLoss_forward.
    rewrite (shape3_of aux_output B N C Ha HB HN).
    rewrite Hd. cbn [bind]. rewrite Hlam. cbn [bind].
    rewrite (reshape_infer_concat (B * N) C _ Hflat) by lia. cbn [bind].
    rewrite Hlc. cbn [bind]. rewrite Hla. cbn [bind]. rewrite Hacc. cbn [bind].
    reflexivity.
  - reflexivity.
Qed.

(** C6, as the code has it. For a rank-3 target of shape [B, C, N + 2]
    without ground-truth correction, the classification target is the slice
    at index 1 of the last axis, of shape [B, C]; the auxiliary target has
    shape [B * N, C], and its row [b * N + n] holds, for every class [c],
    the entry at index [2 + n] of the last axis: the slices from index 2
    on, with the token axis moved in front of the class axis and the batch
    and token axes merged.  Next to logits of shape [B, C] with [C >= 5],
    the cross-entropy and the accuracy accept that classification target as
    a soft label of shape [B, C]. *)
Theorem decompose_target_rank3 (B N C : nat) (t : cube) (output : mat) :
  has_shape3 t B C (N + 2) = true ->
  has_shape2 output B C = true ->
  5 <= C ->
  exists target_cls target_aux loss_cls acc,
    decompose_target false B N C (Rank3 t) = inr (target_cls, target_aux)
    /\ has_shape2 target_cls B C = true
    /\ (forall b c, b < B -> c < C -> entry target_cls b c = entry3 t b c 1)
    /\ has_shape2 target_aux (B * N) C = true
    /\ (forall b n c, b < B -> n < N -> c < C ->
          entry target_aux (b * N + n) c = entry3 t b c (2 + n))
    /\ CE_forward logsumexp output target_cls = inr loss_cls
    /\ accuracy output (SoftLabel target_cls) [1; 5] = inr acc.
Proof.
  intros H Ho HC.
  destruct (decompose_rank3 false B N C t H)
    as (target_cls & target_aux & Hd & Hs & Ha & Haux & Hcls); [lia|discriminate|].
  destruct (CE_forward_ok output target_cls B C Ho Hs) as (loss_cls & Hl).
  assert (Hidx : class_indices (SoftLabel target_cls)
                 = inr (map argmax_index target_cls))
    by (apply (mapM_argmax _ B C Hs); lia).
  assert (Hacc := accuracy_unfold output (SoftLabel target_cls) [1; 5] _ B C Ho Hidx).
  rewrite length_map, (has_shape2_length _ _ _ Hs) in Hacc.
  specialize (Hacc eq_refl). simpl list_max in Hacc.
  specialize (Hacc ltac:(lia) HC).
  exists target_cls, target_aux, loss_cls. eexists.
  split; [exact Hd|]. split; [exact Hs|]. split; [exact Hcls|].
  split; [exact Ha|]. split; [exact Haux|]. split; [exact Hl|exact Hacc].
Qed.

End TokenLabelingLoss.

(** C8. [LVViTLoss.__init__] raises its assertion error when
    [dense_weight + cls_weight <= 0], as with both weights zero, and returns
    the loss module when [dense_weight + cls_weight > 0]; every module it
    returns has [dense_weight + cls_weight > 0]. *)
Theorem LVViTLoss_init_spec (dense cls : scalar) (gt : bool) :
  ((dense + cls <= 0)%Qc -> LVViTLoss_init dense cls gt = inl AssertionError)
  /\ LVViTLoss_init 0%Qc 0%Qc gt = inl AssertionError
  /\ ((0 < dense + cls)%Qc ->
      LVViTLoss_init dense cls gt
      = inr {| dense_weight := dense; cls_weight := cls; ground_truth := gt |})
  /\ (forall self, LVViTLoss_init dense cls gt = inr self ->
                   (0 < dense_weight self + cls_weight self)%Qc).
Proof.
  unfold LVViTLoss_init. split; [|split; [|split]].
  - intros H. apply ltb_false in H. now rewrite H.
  - reflexivity.
  - intros H. apply ltb_true in H. now rewrite H.
  - intros self H. destruct (ltb 0 (dense + cls)) eqn:E; [|discriminate].
    inversion H; subst. simpl. now apply ltb_true.
Qed.

(** ** The model wrapper *)

Lemma no_exception_bind {A B : Type} (m : res A) (k : A -> res B) :
  no_exception m -> (forall a, no_exception (k a)) -> no_exception (bind m k).
Proof. intros Hm Hk. destruct m as [e|a]; simpl; auto. Qed.

Lemma no_exception_mapM {A B : Type} (f : A -> res B) (l : list A) :
  (forall a, no_exception (f a)) -> no_exception (mapM f l).
Proof.
  intros H. induction l as [|a l IH]; simpl; [exact I|].
  apply no_exception_bind; [apply H|]. intros b.
  apply no_exception_bind; [exact IH|]. intros bs. exact I.
Qed.

Ltac no_exc :=
  repeat first
    [ exact I
    | apply no_exception_bind; [|intros ?]
    | apply no_exception_mapM; intros ?
    | match goal with
      | |- no_exception (if ?c then _ else _) => destruct c
      | |- no_exception (match ?x with _ => _ end) => destruct x
      | |- no_exception (let '(_, _) := ?x in _) => destruct x
      end ].

Lemma no_exception_argmax (l : vec) : no_exception (argmax l).
Proof. unfold argmax. no_exc. Qed.

Lemma no_exception_max_value (l : vec) : no_exception (max_value l).
Proof. unfold max_value. no_exc. Qed.

Lemma no_exception_item1 {A : Type} (l : list A) : no_exception (item1 l).
Proof. destruct l as [|a [|b l]]; exact I. Qed.

Lemma no_exception_reshape {A : Type} (rows cols : nat) (l : list A) :
  no_exception (reshape rows cols l).
Proof. unfold reshape. no_exc. Qed.

Lemma no_exception_reshape_infer {A : Type} (cols : nat) (l : list A) :
  no_exception (reshape_infer cols l).
Proof. unfold reshape_infer. no_exc. Qed.

Lemma no_exception_select_last (i : nat) (t : cube) : no_exception (select_last i t).
Proof. unfold select_last. no_exc. Qed.

Lemma no_exception_mul (a b : mat) : no_exception (mul a b).
Proof. unfold mul, shape2. no_exc. Qed.

Lemma no_exception_topk_row (k : nat) (row : vec) : no_exception (topk_row k row).
Proof. unfold topk_row. no_exc. Qed.

Lemma no_exception_expand_as (cols : nat) (t : list nat) :
  no_exception (expand_as cols t).
Proof. unfold expand_as. no_exc. Qed.

Lemma no_exception_accuracy (output : mat) (tg : labels) (topk : list nat) :
  no_exception (accuracy output tg topk).
Proof.
  unfold accuracy.
  apply no_exception_bind; [destruct topk; exact I|]. intros maxk.
  apply no_exception_bind.
  { destruct tg; [exact I|]. apply no_exception_mapM, no_exception_argmax. }
  intros idx.
  apply no_exception_bind; [apply no_exception_mapM, no_exception_topk_row|].
  intros pred.
  apply no_exception_bind; [apply no_exception_expand_as|]. intros t. exact I.
Qed.

Lemma no_exception_lam_of (bb : bbox) (N : nat) : no_exception (lam_of bb N).
Proof. destruct bb as [[[x1 y1] x2] y2]. unfold lam_of. no_exc. Qed.

Lemma no_exception_decompose_target (gt : bool) (B N C : nat) (tg : target) :
  no_exception (decompose_target gt B N C tg).
Proof.
  unfold decompose_target. destruct tg as [t|t].
  - apply no_exception_bind; [apply no_exception_reshape|]. intros a. exact I.
  - apply no_exception_bind; [apply no_exception_select_last|]. intros c.
    apply no_exception_bind.
    { destruct gt; [|exact I].
      apply no_exception_bind; [apply no_exception_select_last|]. intros g.
      apply no_exception_bind; [apply no_exception_mapM, no_exception_max_value|].
      intros gv.
      apply no_exception_bind; [apply no_exception_item1|]. intros gm.
      apply no_exception_bind; [apply no_exception_mapM, no_exception_max_value|].
      intros cv.
      apply no_exception_bind; [apply no_exception_item1|]. intros cm. exact I. }
    intros c'.
    apply no_exception_bind; [apply no_exception_reshape_infer|]. intros a. exact I.
Qed.

Section WrapperFacts.

Variable logsumexp : vec -> scalar.

Lemma no_exception_CE_forward (x target : mat) :
  no_exception (CE_forward logsumexp x target).
Proof.
  unfold CE_forward.
  apply no_exception_bind; [no_exc|]. intros t.
  apply no_exception_bind; [apply no_exception_mul|]. intros p. exact I.
Qed.

Lemma no_exception_LVViTLoss_forward (self : LVViTLoss) (x : backbone_out)
      (tg : target) :
  no_exception (LVViTLoss_forward logsumexp self x tg).
Proof.
  destruct x as [[output aux_output] bb]. unfold LVViTLoss_forward.
  destruct (shape3 aux_output) as [[B N] C].
  apply no_exception_bind; [apply no_exception_decompose_target|].
  intros [target_cls target_aux].
  apply no_exception_bind; [apply no_exception_lam_of|]. intros lam.
  apply no_exception_bind; [apply no_exception_reshape_infer|]. intros aux.
  apply no_exception_bind; [apply no_exception_CE_forward|]. intros loss_cls.
  apply no_exception_bind; [apply no_exception_CE_forward|]. intros loss_aux.
  apply no_exception_bind; [apply no_exception_accuracy|]. intros acc.
  destruct acc as [|a1 [|a5 [|? ?]]]; exact I.
Qed.

Variables image features : Type.

Lemma no_exception_getitem (kw : kwargs image) (key : string) :
  match getitem kw key with
  | inl e => e = KeyError key
  | inr _ => True
  end.
Proof.
  induction kw as [|[k v] kw IH]; cbn [getitem]; [reflexivity|].
  destruct (String.eqb key k); [exact I|exact IH].
Qed.

Lemma no_exception_train_iter (self : LVViTWrapper image features)
      (inputs : list (pyarg image)) (kw : kwargs image) :
  no_exception (train_iter logsumexp self inputs kw).
Proof.
  unfold train_iter. destruct inputs as [|a [|b [|? ?]]]; try exact I.
  apply no_exception_bind.
  { pose proof (no_exception_getitem kw "mixup_fn") as H.
    destruct (getitem kw "mixup_fn"); [subst; exact I|exact I]. }
  intros mixup_fn. destruct a as [img|?]; [|exact I].
  destruct b as [|label]; [exact I|].
  destruct (match mixup_fn with
            | PyNone => (img, label)
            | Callable f => f img label
            end) as [img' label'].
  apply no_exception_bind; [apply no_exception_LVViTLoss_forward|].
  intros d. exact I.
Qed.

Lemma no_exception_test_iter (self : LVViTWrapper image features)
      (inputs : list (pyarg image)) (kw : kwargs image) :
  no_exception (test_iter self inputs kw).
Proof.
  unfold test_iter. destruct inputs as [|a [|b [|? ?]]]; try exact I.
  destruct a; exact I.
Qed.

Lemma no_exception_infer_iter (self : LVViTWrapper image features)
      (inputs : list (pyarg image)) (kw : kwargs image) :
  no_exception (infer_iter self inputs kw).
Proof.
  unfold infer_iter. destruct inputs as [|[img|?] [|? ?]]; exact I.
Qed.

(** C9. For every mode string other than [train], [test], [infer] and
    [extract], the wrapper's [forward] raises an exception whose message,
    [No such mode: ] followed by the mode string, names the invalid mode;
    for the four valid mode strings no such exception is raised. *)
Theorem forward_mode_spec (self : LVViTWrapper image features)
        (inputs : list (pyarg image)) (mode : string) (kw : kwargs image) :
  (~ In mode valid_modes ->
   forward logsumexp self inputs mode kw
   = inl (Exception ("No such mode: " ++ mode)))
  /\ (In mode valid_modes ->
      forall msg, forward logsumexp self inputs mode kw <> inl (Exception msg)).
Proof.
  unfold valid_modes. split.
  - intros H. simpl in H. unfold forward.
    destruct (String.eqb_spec mode "train") as [->|_]; [exfalso; apply H; auto 6|].
    destruct (String.eqb_spec mode "test") as [->|_]; [exfalso; apply H; auto 6|].
    destruct (String.eqb_spec mode "infer") as [->|_]; [exfalso; apply H; auto 6|].
    destruct (String.eqb_spec mode "extract") as [->|_]; [exfalso; apply H; auto 6|].
    reflexivity.
  - intros H msg E.
    assert (Hn : no_exception (forward logsumexp self inputs mode kw)).
    { unfold forward.
      destruct (String.eqb_spec mode "train"); [apply no_exception_train_iter|].
      destruct (String.eqb_spec mode "test"); [apply no_exception_test_iter|].
      destruct (String.eqb_spec mode "infer"); [apply no_exception_infer_iter|].
      destruct (String.eqb_spec mode "extract").
      - destruct inputs as [|[img|?] ?]; exact I.
      - simpl in H. intuition congruence. }
    rewrite E in Hn. exact Hn.
Qed.

(** C10, as the code has it. In a train-mode call with inputs
    [(image, label)]: when the keyword [mixup_fn] is given with a function,
    the function is applied to [(image, label)] and its results go to the
    backbone and to the loss module; when it is given as [None], the image
    and the label go there unchanged; when it is not given, the call raises
    [KeyError]. *)
Theorem train_iter_mixup_spec (self : LVViTWrapper image features)
        (img : image) (label : target) (kw : kwargs image) :
  (forall f, getitem kw "mixup_fn" = inr (Callable f) ->
     forward logsumexp self [Image img; Label label] "train" kw
     = bind (LVViTLoss_forward logsumexp (loss self)
               (backbone self (fst (f img label))) (snd (f img label)))
            (fun d => ret (Losses d)))
  /\ (getitem kw "mixup_fn" = inr PyNone ->
      forward logsumexp self [Image img; Label label] "train" kw
      = bind (LVViTLoss_forward logsumexp (loss self) (backbone self img) label)
             (fun d => ret (Losses d)))
  /\ ((forall v, ~ In ("mixup_fn"%string, v) kw) ->
      forward logsumexp self [Image img; Label label] "train" kw
      = inl (KeyError "mixup_fn")).
Proof.
  unfold forward. cbn [String.eqb Ascii.eqb Bool.eqb]. unfold train_iter.
  split; [|split].
  - intros f Hf. rewrite Hf. cbn [bind]. now destruct (f img label).
  - intros Hn. rewrite Hn. reflexivity.
  - intros Hk.
    assert (E : getitem kw "mixup_fn" = inl (KeyError "mixup_fn")).
    { induction kw as [|[k v] kw' IH]; [reflexivity|]. cbn [getitem].
      destruct (String.eqb_spec "mixup_fn" k) as [<-|Hne].
      - exfalso. apply (Hk v). now left.
      - apply IH. intros v' Hv'. apply (Hk v'). now right. }
    rewrite E. reflexivity.
Qed.

End WrapperFacts.

(** ** The theorems on the sample inputs *)

Lemma LVViTLoss_forward_spec_witness :
  exists losses,
    LVViTLoss_forward sample_logsumexp sample_loss
                      (sample_output, sample_aux, sample_bbox)
                      (Rank2 sample_target2) = inr losses
    /\ keys losses = ["loss"; "acc1"; "acc5"]%string.
Proof.
  destruct (LVViTLoss_forward_spec sample_logsumexp sample_loss sample_output
              sample_aux sample_bbox (Rank2 sample_target2) 2 2 5)
    as (tc & ta & lam & lc & la & a1 & a5 & losses & _ & _ & _ & _ & _ & _ & Hf & Hk & _);
    [reflexivity | reflexivity | reflexivity | reflexivity | lia | lia | lia |].
  exists losses. split; [exact Hf | exact Hk].
Defined.

Lemma CE_forward_spec_witness :
  CE_forward sample_logsumexp (concat sample_aux) sample_target2
  = inr (soft_cross_entropy_spec sample_logsumexp 4 2 5 (concat sample_aux)
                                 sample_target2).
Proof.
  apply (CE_forward_spec sample_logsumexp (concat sample_aux) sample_target2 4 2 5 2);
    reflexivity.
Defined.

Lemma mix_target_spec_witness :
  lam_of sample_bbox 2 = inr (q 1 2)
  /\ forall b c, b < 2 -> c < 5 ->
       entry (mix_target (q 1 2) sample_target2) b c
       = (q 1 2 * entry sample_target2 b c
          + (1 - q 1 2) * entry sample_target2 (2 - 1 - b) c)%Qc.
Proof.
  assert (E : (1 - ((q 1 1 - q 0 1) * (q 1 1 - q 0 1) / of_nat 2))%Qc = q 1 2)
    by (apply Qc_is_canon; reflexivity).
  destruct (mix_target_spec (q 0 1) (q 0 1) (q 1 1) (q 1 1) 2 sample_target2 2 5)
    as (Hlam & Hmix & _); [reflexivity | lia |].
  rewrite E in Hlam, Hmix. split; [exact Hlam|].
  apply Hmix. reflexivity.
Defined.

Lemma decompose_target_rank2_witness :
  exists target_aux,
    decompose_target false 2 2 5 (Rank2 sample_target2)
    = inr (sample_target2, target_aux)
    /\ has_shape2 target_aux 4 5 = true.
Proof.
  destruct (decompose_target_rank2 false 2 2 5 sample_target2)
    as (ta & Hd & Hs & _); [reflexivity|].
  exists ta. split; [exact Hd | exact Hs].
Defined.

Lemma decompose_target_rank3_witness :
  exists target_cls target_aux,
    decompose_target false 2 2 5 (Rank3 sample_target3) = inr (target_cls, target_aux)
    /\ has_shape2 target_cls 2 5 = true
    /\ has_shape2 target_aux 4 5 = true.
Proof.
  destruct (decompose_target_rank3 sample_logsumexp 2 2 5 sample_target3 sample_output)
    as (tc & ta & lc & acc & Hd & Hs & _ & Ha & _); [reflexivity | reflexivity | lia |].
  exists tc, ta. split; [exact Hd|]. split; [exact Hs | exact Ha].
Defined.

Lemma accuracy_spec_witness :
  exists res,
    accuracy sample_output (SoftLabel sample_target2) [1; 5] = inr res
    /\ length res = 2
    /\ Forall (fun v => (0 <= v)%Qc /\ (v <= q 100 1)%Qc) res.
Proof.
  destruct (accuracy_spec sample_output (SoftLabel sample_target2) [1; 5] 2 5)
    as (idx & res & _ & _ & Hacc & Hlen & _ & Hrange & _);
    [reflexivity | reflexivity | lia | simpl; lia | simpl; lia |].
  exists res. split; [exact Hacc|]. split; [exact Hlen | exact Hrange].
Defined.

Lemma LVViTLoss_init_spec_witness :
  LVViTLoss_init 1%Qc 1%Qc false = inr sample_loss
  /\ LVViTLoss_init 0%Qc 0%Qc false = inl AssertionError.
Proof.
  destruct (LVViTLoss_init_spec 1%Qc 1%Qc false) as (_ & Hzero & Hpos & _).
  split; [|exact Hzero]. apply Hpos. reflexivity.
Defined.

Lemma forward_mode_spec_witness :
  forward sample_logsumexp sample_wrapper [] "eval" []
  = inl (Exception "No such mode: eval").
Proof.
  apply (forward_mode_spec sample_logsumexp unit unit sample_wrapper [] "eval" []).
  unfold valid_modes. simpl. intros [H|[H|[H|[H|H]]]]; try discriminate H. exact H.
Defined.

Lemma train_iter_mixup_spec_witness :
  forward sample_logsumexp sample_wrapper [Image tt; Label (Rank2 sample_target2)]
          "train" [("mixup_fn"%string, PyNone)]
  = bind (LVViTLoss_forward sample_logsumexp sample_loss
            (sample_output, sample_aux, sample_bbox) (Rank2 sample_target2))
         (fun d => ret (Losses d)).
Proof.
  apply (train_iter_mixup_spec sample_logsumexp unit unit sample_wrapper tt
           (Rank2 sample_target2) [("mixup_fn"%string, PyNone)]).
  reflexivity.
Defined.

(** ** Where the specification departs from the code *)

(** C1 as stated fails: on the example of three classes, logits of shape
    [2, 3], auxiliary logits of shape [2, 4, 3], a rank-2 target and weights
    1 and 1, the two cross-entropies are computed and the top-5 accuracy
    then raises, whatever the log-sum-exp: no mapping is returned. *)
Lemma LVViTLoss_forward_three_classes_counterexample :
  has_shape2 three_class_output 2 3 = true
  /\ has_shape3 three_class_aux 2 4 3 = true
  /\ has_shape2 three_class_target 2 3 = true
  /\ (forall logsumexp,
        LVViTLoss_forward logsumexp sample_loss
                          (three_class_output, three_class_aux, sample_bbox)
                          (Rank2 three_class_target)
        = inl (ShapeError "topk")).
Proof.
  split; [reflexivity|]. split; [reflexivity|]. split; [reflexivity|].
  intros logsumexp. reflexivity.
Qed.

(** C7 as stated fails: with logits of shape [2, 5] and the non-empty rank
    set [(6,)], [accuracy] raises in [topk] and returns no value. *)
Lemma accuracy_rank_counterexample :
  has_shape2 sample_output 2 5 = true
  /\ accuracy sample_output (ClassIndex [4; 1]) [6] = inl (ShapeError "topk").
Proof. split; reflexivity. Qed.

(** C6 as stated fails: a rank-3 target of shape [B, N, K] = [1, 2, 7], next
    to auxiliary logits of shape [1, 2, 5], gives a classification target of
    shape [1, 2], not [1, 5], and the loss raises a shape error whatever the
    log-sum-exp. *)
Lemma decompose_target_tokens_first_counterexample :
  has_shape3 tokens_first_target 1 2 7 = true
  /\ has_shape3 tokens_first_aux 1 2 5 = true
  /\ has_shape2 tokens_first_output 1 5 = true
  /\ (exists target_cls target_aux,
        decompose_target false 1 2 5 (Rank3 tokens_first_target)
        = inr (target_cls, target_aux)
        /\ shape2 target_cls = (1, 2)
        /\ has_shape2 target_cls 1 5 = false)
  /\ (forall logsumexp,
        LVViTLoss_forward logsumexp sample_loss
                          (tokens_first_output, tokens_first_aux, sample_bbox)
                          (Rank3 tokens_first_target)
        = inl (ShapeError "multiply")).
Proof.
  split; [reflexivity|]. split; [reflexivity|]. split; [reflexivity|]. split.
  - eexists _, _. split; [reflexivity|]. split; reflexivity.
  - intros logsumexp. reflexivity.
Qed.

(** C10 as stated fails: the same train-mode call that succeeds with
    [mixup_fn=None] raises [KeyError] when the keyword is not given. *)
Lemma train_iter_missing_mixup_counterexample :
  (exists d,
      forward sample_logsumexp sample_wrapper
              [Image tt; Label (Rank2 sample_target2)] "train"
              [("mixup_fn"%string, PyNone)]
      = inr (Losses d))
  /\ (forall logsumexp,
        forward logsumexp sample_wrapper
                [Image tt; Label (Rank2 sample_target2)] "train" []
        = inl (KeyError "mixup_fn")).
Proof.
  split.
  - eexists. vm_compute. reflexivity.
  - intros logsumexp. reflexivity.
Qed.

(** * Further properties of the loss, the metric and the wrapper *)

(** ** Sums and means *)

Lemma sum_map_scale {A : Type} (k : scalar) (f : A -> scalar) (l : list A) :
  sum (map (fun a => (k * f a)%Qc) l) = (k * sum (map f l))%Qc.
Proof.
  induction l as [|a l IH]; simpl.
  - unfold sum. simpl. ring.
  - unfold sum in *. simpl. rewrite IH. ring.
Qed.

Lemma sum_map2_plus (u v : vec) :
  length u = length v -> sum (map2 Qcplus u v) = (sum u + sum v)%Qc.
Proof.
  revert v. induction u as [|a u IH]; intros [|b v] H; simpl in *; try discriminate.
  - unfold sum. simpl. ring.
  - unfold sum in *. simpl. rewrite IH by lia. ring.
Qed.

Lemma sum_scaled (k : scalar) (v : vec) :
  sum (map (Qcmult k) v) = (k * sum v)%Qc.
Proof.
  rewrite <- (map_id v) at 2. apply (sum_map_scale k (fun a => a)).
Qed.

Lemma mean_linear {A : Type} (a b : scalar) (f g : A -> scalar) (l : list A) :
  mean (map (fun i => (a * f i + b * g i)%Qc) l)
  = (a * mean (map f l) + b * mean (map g l))%Qc.
Proof.
  unfold mean. rewrite !length_map.
  rewrite (sum_map_plus (fun i => (a * f i)%Qc) (fun i => (b * g i)%Qc)).
  rewrite !sum_map_scale. unfold Qcdiv. ring.
Qed.

Section CrossEntropyFacts.

Variable logsumexp : vec -> scalar.

(** The cross-entropy of logits and a target of the same shape, entry by
    entry. *)
Lemma CE_forward_entries (x target : mat) (M C : nat) :
  has_shape2 x M C = true -> has_shape2 target M C = true ->
  CE_forward logsumexp x target
  = inr (mean (map (fun i =>
                      sum (map (fun j => (- entry target i j
                                          * entry (log_softmax logsumexp x) i j)%Qc)
                               (seq 0 C)))
                   (seq 0 M))).
Proof.
  intros Hx Ht.
  rewrite (CE_forward_unfold logsumexp x target M M C 1 Hx Ht) by lia.
  rewrite tile0_one. f_equal. f_equal.
  pose proof (log_softmax_shape logsumexp x M C Hx) as HL.
  rewrite (map2_seq _ _ _ [] [] M)
    by (eapply has_shape2_length; eauto using neg_shape).
  rewrite map_map. apply map_ext_in. intros i Hi.
  apply in_seq in Hi. simpl in Hi.
  rewrite (map2_seq _ _ _ 0%Qc 0%Qc C)
    by (eapply has_shape2_nth; eauto using neg_shape; lia).
  f_equal. apply map_ext_in. intros j Hj. apply in_seq in Hj. simpl in Hj.
  now rewrite (nth_neg _ i j M C Ht) by lia.
Qed.

(** The cross-entropy is linear in the target. *)
Lemma CE_forward_linear (x t1 t2 : mat) (a b : scalar) (M C : nat) (l1 l2 : scalar) :
  has_shape2 x M C = true ->
  has_shape2 t1 M C = true -> has_shape2 t2 M C = true ->
  CE_forward logsumexp x t1 = inr l1 ->
  CE_forward logsumexp x t2 = inr l2 ->
  CE_forward logsumexp x (add (scale a t1) (scale b t2))
  = inr (a * l1 + b * l2)%Qc.
Proof.
  intros Hx H1 H2 E1 E2.
  rewrite (CE_forward_entries x t1 M C Hx H1) in E1.
  rewrite (CE_forward_entries x t2 M C Hx H2) in E2.
  inversion E1 as [E1']. inversion E2 as [E2']. clear E1 E2.
  rewrite (CE_forward_entries x _ M C Hx)
    by (apply add_shape; now apply scale_shape).
  f_equal. rewrite <- mean_linear. f_equal.
  apply map_ext_in. intros i Hi. apply in_seq in Hi. simpl in Hi.
  rewrite <- !sum_map_scale, <- sum_map_plus. f_equal.
  apply map_ext_in. intros j Hj. apply in_seq in Hj. simpl in Hj.
  rewrite (entry_add _ _ M C), !(entry_scale _ _ M C);
    auto using scale_shape; try lia.
  ring.
Qed.

(** X1. For logits and a classification target of the same shape [B, C] and
    a mixing coefficient [lam < 1], the cross-entropy against the region-mixed
    target is the mix of the cross-entropies: [lam] times the loss against
    the target plus [1 - lam] times the loss against the batch-reversed
    target. *)
Theorem CE_forward_mix_target (x target_cls : mat) (lam : scalar) (B C : nat) :
  has_shape2 x B C = true ->
  has_shape2 target_cls B C = true ->
  (lam < 1)%Qc ->
  exists l l',
    CE_forward logsumexp x target_cls = inr l
    /\ CE_forward logsumexp x (flip0 target_cls) = inr l'
    /\ CE_forward logsumexp x (mix_target lam target_cls)
       = inr (lam * l + (1 - lam) * l')%Qc.
Proof.
  intros Hx Ht Hlam.
  pose proof (flip0_shape target_cls B C Ht) as Hf.
  destruct (CE_forward_ok logsumexp x target_cls B C Hx Ht) as (l & Hl).
  destruct (CE_forward_ok logsumexp x (flip0 target_cls) B C Hx Hf) as (l' & Hl').
  exists l, l'. split; [exact Hl|]. split; [exact Hl'|].
  unfold mix_target. apply ltb_true in Hlam. rewrite Hlam.
  now apply (CE_forward_linear x target_cls (flip0 target_cls) lam (1 - lam)%Qc B C).
Qed.

(** X2. When the logits have [r] times as many rows as the target, the
    cross-entropy against the target is the cross-entropy against the
    target tiled [r] times. *)
Theorem CE_forward_tiled (x target : mat) (M N C r : nat) :
  has_shape2 x M C = true ->
  has_shape2 target N C = true ->
  M = r * N ->
  CE_forward logsumexp x target = CE_forward logsumexp x (tile0 r target).
Proof.
  intros Hx Ht HM.
  rewrite (CE_forward_unfold logsumexp x target M N C r Hx Ht HM).
  rewrite (CE_forward_unfold logsumexp x (tile0 r target) M M C 1 Hx); try lia.
  - now rewrite tile0_one.
  - subst M. now apply tile0_shape.
Qed.

(** X3. The cross-entropy raises instead of returning a loss when the rows
    cannot be matched: a target without rows next to logits with rows makes
    the replication factor a division by zero, and a target with [N] rows
    next to logits with [M > N] rows, [M] not a multiple of [N], leaves
    [(M / N) * N] target rows, which do not broadcast against [M]. *)
Theorem CE_forward_mismatch (x target : mat) (M N C : nat) :
  has_shape2 x M C = true ->
  has_shape2 target N C = true ->
  (N = 0 -> 1 <= M -> CE_forward logsumexp x target = inl ZeroDivisionError)
  /\ (1 <= N -> N < M -> M mod N <> 0 ->
      CE_forward logsumexp x target = inl (ShapeError "multiply")).
Proof.
  intros Hx Ht. unfold CE_forward.
  rewrite (has_shape2_length _ _ _ Hx), (has_shape2_length _ _ _ Ht). split.
  - intros -> HM. destruct (Nat.eqb_spec 0 M); [lia|]. reflexivity.
  - intros HN HNM Hmod.
    destruct (Nat.eqb_spec N M); [lia|]. destruct (Nat.eqb_spec N 0); [lia|].
    cbn [bind ret]. unfold mul, shape2, neg, log_softmax.
    rewrite !length_map, tile0_length, (has_shape2_length _ _ _ Hx),
      (has_shape2_length _ _ _ Ht).
    assert (HR : M / N * N <> M).
    { intros E. apply Hmod. rewrite <- E. apply Nat.Div0.mod_mul. }
    assert (H1 : 1 <= M / N) by (apply Nat.div_str_pos; lia).
    unfold bdim at 1.
    destruct (Nat.eqb_spec (M / N * N) M); [lia|].
    destruct (Nat.eqb_spec (M / N * N) 1) as [E1|_].
    { exfalso. assert (N = 1) by nia. subst N. apply Hmod. apply Nat.mod_1_r. }
    destruct (Nat.eqb_spec M 1); [lia|]. reflexivity.
Qed.

End CrossEntropyFacts.

(** ** Region mixing, continued *)

Lemma Forall_map2 {A B C : Type} (P : C -> Prop) (f : A -> B -> C)
      (l : list A) (l' : list B) :
  (forall a b, In a l -> In b l' -> P (f a b)) -> Forall P (map2 f l l').
Proof.
  intros H. apply Forall_forall. intros c Hc.
  apply map2_In in Hc. destruct Hc as (a & b & Ha & Hb & ->). auto.
Qed.

Lemma map2_rev {A B C : Type} (f : A -> B -> C) (l : list A) (l' : list B) :
  length l = length l' -> rev (map2 f l l') = map2 f (rev l) (rev l').
Proof.
  rewrite !map2_combine. intros H. rewrite <- map_rev. f_equal.
  revert l' H. induction l as [|a l IH]; intros [|b l'] H; simpl in *;
    try discriminate; try reflexivity.
  rewrite IH by lia. clear IH.
  assert (HL : length (rev l) = length (rev l')) by (rewrite !length_rev; lia).
  revert HL. generalize (rev l) (rev l'). clear.
  induction l as [|x l IH]; intros [|y l'] H; simpl in *; try discriminate;
    try reflexivity.
  now rewrite IH by lia.
Qed.

Lemma map2_same_row (a b : scalar) (r : vec) :
  (a + b = 1)%Qc -> map2 Qcplus (map (Qcmult a) r) (map (Qcmult b) r) = r.
Proof.
  intros H. induction r as [|v r IH]; simpl; [reflexivity|].
  rewrite IH. f_equal. replace v with (1 * v)%Qc at 3 by ring. rewrite <- H. ring.
Qed.

Lemma add_scale_same (a b : scalar) (t : mat) :
  (a + b = 1)%Qc -> add (scale a t) (scale b t) = t.
Proof.
  intros H. unfold add, scale. induction t as [|r t IH]; simpl; [reflexivity|].
  now rewrite IH, map2_same_row.
Qed.

(** X4. Region mixing keeps the rows of the classification target
    normalised: when every row of a target of shape [B, C] sums to [s], so
    does every row of the mixed target, whatever the coefficient. *)
Theorem mix_target_row_sums (lam s : scalar) (target_cls : mat) (B C : nat) :
  has_shape2 target_cls B C = true ->
  Forall (fun row => sum row = s) target_cls ->
  Forall (fun row => sum row = s) (mix_target lam target_cls).
Proof.
  intros H Hs. unfold mix_target. destruct (ltb lam 1); [|exact Hs].
  rewrite Forall_forall in Hs.
  unfold add, scale. apply Forall_map2. intros a b Ha Hb.
  apply in_map_iff in Ha. destruct Ha as (r & <- & Hr).
  apply in_map_iff in Hb. destruct Hb as (r' & <- & Hr').
  unfold flip0 in Hr'. apply in_rev in Hr'.
  rewrite sum_map2_plus
    by (rewrite !length_map, (has_shape2_row _ _ _ _ H Hr),
          (has_shape2_row _ _ _ _ H Hr'); reflexivity).
  rewrite !sum_scaled, (Hs r Hr), (Hs r' Hr'). ring.
Qed.

(** X5. Region mixing changes nothing on a batch that reads the same in both
    directions, in particular on a batch of a single sample, whatever the
    bounding box. *)
Theorem mix_target_palindrome (lam : scalar) (target_cls : mat) :
  (flip0 target_cls = target_cls -> mix_target lam target_cls = target_cls)
  /\ (length target_cls = 1 -> mix_target lam target_cls = target_cls).
Proof.
  assert (Hp : flip0 target_cls = target_cls -> mix_target lam target_cls = target_cls).
  { intros E. unfold mix_target. destruct (ltb lam 1); [|reflexivity].
    rewrite E. apply add_scale_same. ring. }
  split; [exact Hp|].
  intros H. apply Hp. destruct target_cls as [|r [|? ?]]; try discriminate.
  reflexivity.
Qed.

(** X6. Region mixing commutes with the reversal of the batch: mixing the
    reversed classification target gives the reversed mixed target. *)
Theorem mix_target_flip0 (lam : scalar) (target_cls : mat) :
  mix_target lam (flip0 target_cls) = flip0 (mix_target lam target_cls).
Proof.
  unfold mix_target. destruct (ltb lam 1); [|reflexivity].
  unfold add, scale, flip0. rewrite map2_rev by (rewrite !length_map, length_rev; reflexivity).
  now rewrite !map_rev.
Qed.

(** ** Target decomposition, continued *)

(** X7. A rank-3 target with fewer than two slices on its last axis has no
    slice at index 1: the decomposition raises [IndexError], with or without
    ground-truth correction. *)
Theorem decompose_target_too_few_slices (gt : bool) (B N C B' C' K : nat) (t : cube) :
  has_shape3 t B' C' K = true ->
  1 <= B' -> 1 <= C' -> K <= 1 ->
  decompose_target gt B N C (Rank3 t) = inl IndexError.
Proof.
  intros H HB HC HK. unfold decompose_target, select_last.
  destruct t as [|m t]; [apply has_shape3_length in H; simpl in H; lia|].
  assert (Hm : has_shape2 m C' K = true) by (apply (has_shape3_In _ _ _ _ _ H); now left).
  destruct m as [|v m]; [apply has_shape2_length in Hm; simpl in Hm; lia|].
  assert (Hv : length v = K) by (apply (has_shape2_row _ _ _ _ Hm); now left).
  cbn [forallb]. replace (1 <? length v) with false
    by (symmetry; apply Nat.ltb_ge; lia).
  reflexivity.
Qed.

Lemma row_as_entries (t : mat) (R C b : nat) :
  has_shape2 t R C = true -> b < R ->
  nth b t [] = map (fun c => entry t b c) (seq 0 C).
Proof.
  intros H Hb. unfold entry.
  rewrite (firstn_as_nth 0%Qc C (nth b t []))
    by (rewrite (has_shape2_nth _ _ _ _ H Hb); lia).
  rewrite <- (has_shape2_nth _ _ _ _ H Hb) at 1. symmetry. apply firstn_all.
Qed.

(** X8. The decomposition of a rank-3 target of shape [B, C, N + 2] keeps the
    classification target normalised: for a sample whose ground-truth slice
    and classification slice both sum to [s] over the classes, the row of
    the classification target sums to [s], without ground-truth correction
    and, on a batch of at least two samples, with it. *)
Theorem decompose_target_row_sums (gt : bool) (B N C : nat) (t : cube) (s : scalar) :
  has_shape3 t B C (N + 2) = true ->
  1 <= C ->
  (gt = true -> 2 <= B) ->
  exists target_cls target_aux,
    decompose_target gt B N C (Rank3 t) = inr (target_cls, target_aux)
    /\ forall b, b < B ->
         sum (map (fun c => entry3 t b c 0) (seq 0 C)) = s ->
         sum (map (fun c => entry3 t b c 1) (seq 0 C)) = s ->
         sum (nth b target_cls []) = s.
Proof.
  intros H HC HB.
  destruct (decompose_rank3 gt B N C t H HC HB)
    as (target_cls & target_aux & Hd & Hs & _ & _ & Hcls).
  exists target_cls, target_aux. split; [exact Hd|].
  intros b Hb H0 H1. rewrite (row_as_entries target_cls B C b Hs Hb).
  erewrite map_ext_in.
  2:{ intros c Hc. apply in_seq in Hc. simpl in Hc. apply (Hcls b c Hb). lia. }
  destruct gt; [|exact H1]. cbv zeta.
  set (ratio := ratio_of _ _).
  erewrite map_ext.
  2:{ intros c. rewrite (Qcmult_comm (entry3 t b c 1)), (Qcmult_comm (entry3 t b c 0)).
      reflexivity. }
  rewrite (sum_map_plus (fun c => (ratio * entry3 t b c 1)%Qc)
                        (fun c => ((1 - ratio) * entry3 t b c 0)%Qc)).
  rewrite !sum_map_scale, H0, H1. ring.
Qed.

(** ** The accuracy metric, continued *)

Lemma filter_length_mono {A : Type} (f g : A -> bool) (l : list A) :
  (forall a, In a l -> f a = true -> g a = true) ->
  length (filter f l) <= length (filter g l).
Proof.
  induction l as [|a l IH]; intros H; simpl; [lia|].
  assert (IH' := IH (fun x Hx => H x (or_intror Hx))).
  destruct (f a) eqn:Ef.
  - rewrite (H a (or_introl eq_refl) Ef). simpl. lia.
  - destruct (g a); simpl; lia.
Qed.

Lemma in_topk_mono (k k' : nat) (row : vec) (t : nat) :
  k <= k' -> in_topk k row t = true -> in_topk k' row t = true.
Proof.
  intros Hk. unfold in_topk. rewrite !existsb_exists.
  intros (x & Hx & E). exists x. split; [|exact E].
  rewrite <- (Nat.min_l k k' Hk), <- firstn_firstn in Hx.
  rewrite <- (firstn_skipn k (firstn k' (ranking row))). apply in_or_app. now left.
Qed.

Lemma hits_mono (k k' : nat) (output : mat) (idx : list nat) :
  k <= k' -> hits k output idx <= hits k' output idx.
Proof.
  intros Hk. unfold hits. apply filter_length_mono.
  intros p _. now apply in_topk_mono.
Qed.

Lemma percent_mono (h h' B : nat) :
  h <= h' -> 1 <= B ->
  (of_nat h * q 100 1 / of_nat B <= of_nat h' * q 100 1 / of_nat B)%Qc.
Proof.
  intros Hh HB.
  pose proof (of_nat_pos B HB) as Hpos.
  assert (Hne : of_nat B <> 0%Qc) by (now apply of_nat_neq_0).
  assert (H100 : (0 <= q 100 1)%Qc) by (unfold Qcle; simpl; discriminate).
  apply (Qcmult_lt_0_le_reg_r _ _ (of_nat B) Hpos).
  replace (of_nat h * q 100 1 / of_nat B * of_nat B)%Qc with (of_nat h * q 100 1)%Qc
    by (field; exact Hne).
  replace (of_nat h' * q 100 1 / of_nat B * of_nat B)%Qc with (of_nat h' * q 100 1)%Qc
    by (field; exact Hne).
  apply Qcmult_le_compat_r; auto. now apply of_nat_le.
Qed.

(** X9. The accuracy grows with the rank: for logits of shape [B, C], a
    fitting target and ranks [1 <= k <= k' <= C], the top-[k] accuracy is at
    most the top-[k'] accuracy. *)
Theorem accuracy_monotone (output : mat) (tg : labels) (k k' B C : nat) :
  has_shape2 output B C = true ->
  labels_fit tg B C = true ->
  1 <= B -> 1 <= k -> k <= k' -> k' <= C ->
  exists a a',
    accuracy output tg [k; k'] = inr [a; a'] /\ (a <= a')%Qc.
Proof.
  intros Ho Hfit HB H1 Hk HC.
  destruct (class_indices_ok tg B C Hfit) as (idx & Hidx & HL & _); [lia|].
  assert (Hmax : list_max [k; k'] = k') by (simpl; lia).
  do 2 eexists. split.
  - apply (accuracy_unfold output tg [k; k'] idx B C Ho Hidx HL); rewrite Hmax; lia.
  - apply percent_mono; auto. now apply hits_mono.
Qed.

Lemma argmax_from_bound (l : vec) (best_i i : nat) (best : scalar) :
  best_i < i -> argmax_from best_i best i l < i + length l.
Proof.
  revert best_i best i. induction l as [|x l IH]; intros best_i best i H; simpl.
  - lia.
  - destruct (ltb best x).
    + specialize (IH i x (S i)). lia.
    + specialize (IH best_i best (S i)). lia.
Qed.

Lemma argmax_index_bound (row : vec) :
  1 <= length row -> argmax_index row < length row.
Proof.
  destruct row as [|x l]; simpl; [lia|]. intros _.
  pose proof (argmax_from_bound l 0 1 x). lia.
Qed.

Lemma in_topk_all (row : vec) (t : nat) :
  t < length row -> in_topk (length row) row t = true.
Proof.
  intros H. unfold in_topk. apply existsb_exists. exists t.
  split; [|apply Nat.eqb_refl].
  rewrite <- (ranking_length row), firstn_all.
  apply (Permutation_in t (Permutation_sym (ranking_perm row))).
  apply in_seq. lia.
Qed.

Lemma hits_all_classes (output : mat) (idx : list nat) (B C : nat) :
  has_shape2 output B C = true -> length idx = B ->
  Forall (fun c => c < C) idx ->
  hits C output idx = B.
Proof.
  intros Ho HL Hidx. unfold hits.
  rewrite forallb_filter_id; [rewrite length_combine, HL,
    (has_shape2_length _ _ _ Ho); apply Nat.min_id|].
  apply forallb_forall. intros [row t] Hp. cbn [fst snd].
  pose proof (has_shape2_row _ _ _ _ Ho (in_combine_l _ _ _ _ Hp)) as Hrow.
  rewrite <- Hrow. apply in_topk_all. rewrite Hrow.
  rewrite Forall_forall in Hidx. apply Hidx. eapply in_combine_r; eauto.
Qed.

(** X10. Ranking all [C] classes hits every row: for logits of shape
    [B, C] and a soft target of the same shape, or [B] class indices below
    [C], the top-[C] accuracy is 100. *)
Theorem accuracy_all_classes (output : mat) (tg : labels) (B C : nat) :
  has_shape2 output B C = true ->
  labels_fit tg B C = true ->
  1 <= B -> 1 <= C ->
  (forall t, tg = ClassIndex t -> Forall (fun c => c < C) t) ->
  accuracy output tg [C] = inr [q 100 1].
Proof.
  intros Ho Hfit HB HC Hcls.
  destruct (class_indices_ok tg B C Hfit HC) as (idx & Hidx & HL & Hsoft).
  assert (Hmax : list_max [C] = C) by (simpl; lia).
  rewrite (accuracy_unfold output tg [C] idx B C Ho Hidx HL) by (rewrite Hmax; lia).
  cbn [map]. f_equal. f_equal.
  rewrite (hits_all_classes output idx B C Ho HL); [now apply percent_full|].
  destruct tg as [t|t].
  - simpl in Hidx. inversion Hidx; subst. now apply Hcls.
  - rewrite (Hsoft t eq_refl). apply Forall_forall. intros c Hc.
    apply in_map_iff in Hc. destruct Hc as (row & <- & Hrow).
    simpl in Hfit. rewrite <- (has_shape2_row _ _ _ _ Hfit Hrow).
    apply argmax_index_bound. rewrite (has_shape2_row _ _ _ _ Hfit Hrow). exact HC.
Qed.

(** X11. [accuracy] raises instead of returning values when it is given no
    rank at all, and when the target has neither one class index per row of
    the logits nor a single one. *)
Theorem accuracy_errors (output : mat) (tg : labels) (t : list nat)
        (topk : list nat) (B C : nat) :
  (exists msg, accuracy output tg [] = inl (ValueError msg))
  /\ (has_shape2 output B C = true ->
      1 <= list_max topk -> list_max topk <= C ->
      length t <> B -> length t <> 1 ->
      accuracy output (ClassIndex t) topk = inl (ShapeError "expand_as")).
Proof.
  split; [eexists; reflexivity|].
  intros Ho H1 HC HB Hone. unfold accuracy.
  destruct topk as [|k topk]; [simpl in H1; lia|]. cbn [bind ret].
  rewrite (mapM_total (topk_row (list_max (k :: topk)))
                      (fun row => firstn (list_max (k :: topk)) (ranking row))).
  2:{ intros row Hrow. apply topk_row_ok; auto.
      now rewrite (has_shape2_row _ _ _ _ Ho Hrow). }
  cbn [bind]. unfold expand_as. rewrite (has_shape2_length _ _ _ Ho).
  destruct (Nat.eqb_spec (length t) B); [lia|].
  destruct t as [|c [|c' t']]; simpl in Hone; try reflexivity. lia.
Qed.

(** ** The token-labeling loss, continued *)

Section TokenLabelingLossFacts.

Variable logsumexp : vec -> scalar.

(** The value of [LVViTLoss.forward], from the values of its stages. *)
Lemma LVViTLoss_forward_value (self : LVViTLoss) (output : mat) (aux_output : cube)
      (bb : bbox) (tg : target) (B N C : nat)
      (target_cls target_aux : mat) (lam loss_cls loss_aux : scalar) :
  has_shape2 output B C = true ->
  has_shape3 aux_output B N C = true ->
  target_fits tg B N C = true ->
  no_correction (ground_truth self) tg = true ->
  1 <= B -> 1 <= N -> 5 <= C ->
  decompose_target (ground_truth self) B N C tg = inr (target_cls, target_aux) ->
  lam_of bb N = inr lam ->
  CE_forward logsumexp output (mix_target lam target_cls) = inr loss_cls ->
  CE_forward logsumexp (concat aux_output) target_aux = inr loss_aux ->
  LVViTLoss_forward logsumexp self (output, aux_output, bb) tg
  = inr [("loss"%string,
          (cls_weight self * loss_cls + dense_weight self * loss_aux)%Qc);
         ("acc1"%string,
          (of_nat (hits 1 output (map argmax_index (mix_target lam target_cls)))
           * q 100 1 / of_nat B)%Qc);
         ("acc5"%string,
          (of_nat (hits 5 output (map argmax_index (mix_target lam target_cls)))
           * q 100 1 / of_nat B)%Qc)].
Proof.
  intros Ho Ha Ht Hn HB HN HC Hd Hlam Hlc Hla.
  destruct (decompose_target_shapes (ground_truth self) B N C tg Ht)
    as (tc & ta & Hd' & Hcls & _); [lia|exact Hn|].
  rewrite Hd in Hd'. inversion Hd'; subst tc ta. clear Hd'.
  pose proof (mix_target_shape lam target_cls B C Hcls) as Hmix.
  pose proof (concat_shape aux_output B N C Ha) as Hflat.
  assert (Hidx : class_indices (SoftLabel (mix_target lam target_cls))
                 = inr (map argmax_index (mix_target lam target_cls)))
    by (apply (mapM_argmax _ B C Hmix); lia).
  assert (Hacc := accuracy_unfold output (SoftLabel (mix_target lam target_cls))
                    [1; 5] _ B C Ho Hidx).
  rewrite length_map, (has_shape2_length _ _ _ Hmix) in Hacc.
  specialize (Hacc eq_refl). simpl list_max in Hacc.
  specialize (Hacc ltac:(lia) HC). cbn [map] in Hacc.
  unfold LVViTLoss_forward.
  rewrite (shape3_of aux_output B N C Ha HB HN).
  rewrite Hd. cbn [bind]. rewrite Hlam. cbn [bind].
  rewrite (reshape_infer_concat (B * N) C _ Hflat) by lia. cbn [bind].
  rewrite Hlc. cbn [bind]. rewrite Hla. cbn [bind]. rewrite Hacc. cbn [bind].
  reflexivity.
Qed.

(** The stages of [LVViTLoss.forward] on inputs that fit. *)
Lemma LVViTLoss_forward_stages (self : LVViTLoss) (output : mat) (aux_output : cube)
      (bb : bbox) (tg : target) (B N C : nat) :
  has_shape2 output B C = true ->
  has_shape3 aux_output B N C = true ->
  target_fits tg B N C = true ->
  no_correction (ground_truth self) tg = true ->
  1 <= N -> 1 <= C ->
  exists target_cls target_aux lam loss_cls loss_aux,
    decompose_target (ground_truth self) B N C tg = inr (target_cls, target_aux)
    /\ has_shape2 target_cls B C = true
    /\ lam_of bb N = inr lam
    /\ CE_forward logsumexp output (mix_target lam target_cls) = inr loss_cls
    /\ CE_forward logsumexp (concat aux_output) target_aux = inr loss_aux.
Proof.
  intros Ho Ha Ht Hn HN HC.
  destruct (decompose_target_shapes (ground_truth self) B N C tg Ht HC Hn)
    as (target_cls & target_aux & Hd & Hcls & Haux).
  destruct (lam_of_ok bb N HN) as (lam & Hlam).
  destruct (CE_forward_ok logsumexp output (mix_target lam target_cls) B C Ho
              (mix_target_shape lam target_cls B C Hcls)) as (loss_cls & Hlc).
  destruct (CE_forward_ok logsumexp (concat aux_output) target_aux (B * N) C
              (concat_shape aux_output B N C Ha) Haux) as (loss_aux & Hla).
  exists target_cls, target_aux, lam, loss_cls, loss_aux. auto.
Qed.

(** X12. In the mapping that [LVViTLoss.forward] returns for logits of shape
    [B, C], auxiliary logits of shape [B, N, C] and a fitting target
    ([B, N >= 1], [C >= 5]), on a call without ground-truth correction, both
    accuracies lie between 0 and 100 and the top-1 accuracy is at most the
    top-5 accuracy. *)
Theorem LVViTLoss_forward_accuracies (self : LVViTLoss) (output : mat)
        (aux_output : cube) (bb : bbox) (tg : target) (B N C : nat) :
  has_shape2 output B C = true ->
  has_shape3 aux_output B N C = true ->
  target_fits tg B N C = true ->
  no_correction (ground_truth self) tg = true ->
  1 <= B -> 1 <= N -> 5 <= C ->
  exists l acc1 acc5,
    LVViTLoss_forward logsumexp self (output, aux_output, bb) tg
    = inr [("loss"%string, l); ("acc1"%string, acc1); ("acc5"%string, acc5)]
    /\ (0 <= acc1)%Qc /\ (acc1 <= acc5)%Qc /\ (acc5 <= q 100 1)%Qc.
Proof.
  intros Ho Ha Ht Hn HB HN HC.
  destruct (LVViTLoss_forward_stages self output aux_output bb tg B N C Ho Ha Ht Hn HN)
    as (tc & ta & lam & lc & la & Hd & Hcls & Hlam & Hlc & Hla); [lia|].
  do 3 eexists. split.
  - apply (LVViTLoss_forward_value self output aux_output bb tg B N C tc ta lam lc la);
      assumption.
  - split; [|split].
    + apply percent_range; auto.
      rewrite <- (has_shape2_length _ _ _ Ho). apply hits_le.
    + apply percent_mono; auto. apply hits_mono. lia.
    + apply percent_range; auto.
      rewrite <- (has_shape2_length _ _ _ Ho). apply hits_le.
Qed.

(** X13. With exactly five classes the top-5 accuracy that
    [LVViTLoss.forward] reports on a call without ground-truth correction is
    100 whatever the logits and the target: the five best-ranked classes are
    all the classes. *)
Theorem LVViTLoss_forward_five_classes (self : LVViTLoss) (output : mat)
        (aux_output : cube) (bb : bbox) (tg : target) (B N : nat) :
  has_shape2 output B 5 = true ->
  has_shape3 aux_output B N 5 = true ->
  target_fits tg B N 5 = true ->
  no_correction (ground_truth self) tg = true ->
  1 <= B -> 1 <= N ->
  exists l acc1,
    LVViTLoss_forward logsumexp self (output, aux_output, bb) tg
    = inr [("loss"%string, l); ("acc1"%string, acc1); ("acc5"%string, q 100 1)].
Proof.
  intros Ho Ha Ht Hn HB HN.
  destruct (LVViTLoss_forward_stages self output aux_output bb tg B N 5 Ho Ha Ht Hn HN)
    as (tc & ta & lam & lc & la & Hd & Hcls & Hlam & Hlc & Hla); [lia|].
  pose proof (mix_target_shape lam tc B 5 Hcls) as Hmix.
  do 2 eexists.
  rewrite (LVViTLoss_forward_value self output aux_output bb tg B N 5 tc ta lam lc la);
    try assumption; try lia.
  rewrite (hits_all_classes output _ B 5 Ho).
  - rewrite (percent_full B HB). reflexivity.
  - now rewrite length_map, (has_shape2_length _ _ _ Hmix).
  - apply Forall_forall. intros c Hc.
    apply in_map_iff in Hc. destruct Hc as (row & <- & Hrow).
    rewrite <- (has_shape2_row _ _ _ _ Hmix Hrow).
    apply argmax_index_bound. rewrite (has_shape2_row _ _ _ _ Hmix Hrow). lia.
Qed.

(** X14. When the box covers part of the token grid ([lam < 1]) the loss that
    [LVViTLoss.forward] returns on a call without ground-truth correction
    mixes the classification term only:
    [cls_weight * (lam * l + (1 - lam) * l') + dense_weight * loss_aux], with
    [l] and [l'] the cross-entropies of the classification logits against
    the classification target and against that target batch-reversed, and
    [loss_aux] the cross-entropy against the unmixed auxiliary target. *)
Theorem LVViTLoss_forward_mixed_loss (self : LVViTLoss) (output : mat)
        (aux_output : cube) (bb : bbox) (tg : target) (B N C : nat) (lam : scalar) :
  has_shape2 output B C = true ->
  has_shape3 aux_output B N C = true ->
  target_fits tg B N C = true ->
  no_correction (ground_truth self) tg = true ->
  1 <= B -> 1 <= N -> 5 <= C ->
  lam_of bb N = inr lam ->
  (lam < 1)%Qc ->
  exists target_cls target_aux l l' loss_aux acc1 acc5,
    decompose_target (ground_truth self) B N C tg = inr (target_cls, target_aux)
    /\ CE_forward logsumexp output target_cls = inr l
    /\ CE_forward logsumexp output (flip0 target_cls) = inr l'
    /\ CE_forward logsumexp (concat aux_output) target_aux = inr loss_aux
    /\ LVViTLoss_forward logsumexp self (output, aux_output, bb) tg
       = inr [("loss"%string,
               (cls_weight self * (lam * l + (1 - lam) * l')
                + dense_weight self * loss_aux)%Qc);
              ("acc1"%string, acc1); ("acc5"%string, acc5)].
Proof.
  intros Ho Ha Ht Hn HB HN HC Hlam Hlt.
  destruct (LVViTLoss_forward_stages self output aux_output bb tg B N C Ho Ha Ht Hn HN)
    as (tc & ta & lam' & lc & la & Hd & Hcls & Hlam' & Hlc & Hla); [lia|].
  rewrite Hlam in Hlam'. inversion Hlam'; subst lam'. clear Hlam'.
  pose proof (flip0_shape tc B C Hcls) as Hf.
  destruct (CE_forward_ok logsumexp output tc B C Ho Hcls) as (l & Hl).
  destruct (CE_forward_ok logsumexp output (flip0 tc) B C Ho Hf) as (l' & Hl').
  assert (Hmixed : CE_forward logsumexp output (mix_target lam tc)
                   = inr (lam * l + (1 - lam) * l')%Qc).
  { unfold mix_target. rewrite (proj2 (ltb_true lam 1) Hlt).
    now apply (CE_forward_linear logsumexp output tc (flip0 tc) lam (1 - lam)%Qc B C). }
  exists tc, ta, l, l', la. do 2 eexists.
  split; [exact Hd|]. split; [exact Hl|]. split; [exact Hl'|]. split; [exact Hla|].
  apply (LVViTLoss_forward_value self output aux_output bb tg B N C tc ta lam _ la);
    assumption.
Qed.

End TokenLabelingLossFacts.

(** ** The model wrapper, continued *)

Section WrapperModes.

Variable logsumexp : vec -> scalar.
Variables image features : Type.

(** X16. In [test] mode the wrapper returns a value exactly when it is given
    two inputs of which the first is an image batch, and the value is the
    backbone output on that batch: the second input and the keyword options
    are not looked at, and no loss is computed. *)
Theorem forward_test_mode (self : LVViTWrapper image features)
        (inputs : list (pyarg image)) (kw : kwargs image) (r : outputs features) :
  forward logsumexp self inputs "test" kw = inr r
  <-> exists img b, inputs = [Image img; b] /\ r = Outs (backbone self img).
Proof.
  unfold forward. cbn [String.eqb Ascii.eqb Bool.eqb]. unfold test_iter. split.
  - destruct inputs as [|a [|b [|? ?]]]; try discriminate.
    destruct a as [img|?]; [|discriminate].
    intros E. inversion E. now exists img, b.
  - intros (img & b & -> & ->). reflexivity.
Qed.

(** X17. In [extract] mode the wrapper returns a value exactly when its first
    input is an image batch, and the value is the feature the backbone
    extracts from it: further inputs and the keyword options are not looked
    at. *)
Theorem forward_extract_mode (self : LVViTWrapper image features)
        (inputs : list (pyarg image)) (kw : kwargs image) (r : outputs features) :
  forward logsumexp self inputs "extract" kw = inr r
  <-> exists img rest, inputs = Image img :: rest
                       /\ r = Features (backbone_forward_features self img).
Proof.
  unfold forward. cbn [String.eqb Ascii.eqb Bool.eqb]. split.
  - destruct inputs as [|[img|?] rest]; try discriminate.
    intros E. inversion E. now exists img, rest.
  - intros (img & rest & -> & ->). reflexivity.
Qed.

(** X18. In [train] and [test] mode any number of inputs other than two
    raises [ValueError], whatever the keyword options: in [train] mode the
    inputs are unpacked before [mixup_fn] is looked up. *)
Theorem forward_arity (self : LVViTWrapper image features)
        (inputs : list (pyarg image)) (kw : kwargs image) :
  length inputs <> 2 ->
  exists msg,
    forward logsumexp self inputs "train" kw = inl (ValueError msg)
    /\ forward logsumexp self inputs "test" kw = inl (ValueError msg).
Proof.
  intros H. unfold forward. cbn [String.eqb Ascii.eqb Bool.eqb].
  unfold train_iter, test_iter.
  destruct inputs as [|a [|b [|? ?]]]; try (eexists; split; reflexivity).
  simpl in H. lia.
Qed.

(** X19. A wrapper built by [__init__] carries the default loss, with both
    weights 1 and without ground-truth correction: the construction never
    fails, and in [train] mode without mixing function, on a backbone output
    and a label that fit, the loss it reports is the plain sum
    [loss_cls + loss_aux]. *)
Theorem LVViTWrapper_init_train (bb : image -> backbone_out)
        (ff : image -> features) (img : image) (label : target)
        (kw : kwargs image) (output : mat) (aux_output : cube) (box : bbox)
        (B N C : nat) :
  bb img = (output, aux_output, box) ->
  has_shape2 output B C = true ->
  has_shape3 aux_output B N C = true ->
  target_fits label B N C = true ->
  1 <= B -> 1 <= N -> 5 <= C ->
  getitem kw "mixup_fn" = inr PyNone ->
  exists self target_cls target_aux lam loss_cls loss_aux acc1 acc5,
    LVViTWrapper_init bb ff = inr self
    /\ loss self = {| dense_weight := 1%Qc; cls_weight := 1%Qc; ground_truth := false |}
    /\ decompose_target false B N C label = inr (target_cls, target_aux)
    /\ lam_of box N = inr lam
    /\ CE_forward logsumexp output (mix_target lam target_cls) = inr loss_cls
    /\ CE_forward logsumexp (concat aux_output) target_aux = inr loss_aux
    /\ forward logsumexp self [Image img; Label label] "train" kw
       = inr (Losses [("loss"%string, (loss_cls + loss_aux)%Qc);
                      ("acc1"%string, acc1); ("acc5"%string, acc5)]).
Proof.
  intros Hbb Ho Ha Ht HB HN HC Hkw.
  set (l := {| dense_weight := 1%Qc; cls_weight := 1%Qc; ground_truth := false |}).
  destruct (LVViTLoss_forward_stages logsumexp l output aux_output box label B N C
              Ho Ha Ht eq_refl HN)
    as (tc & ta & lam & lc & la & Hd & Hcls & Hlam & Hlc & Hla); [lia|].
  exists {| backbone := bb; backbone_forward_features := ff;
            automatic_optimization := false; loss := l |}.
  exists tc, ta, lam, lc, la. do 2 eexists.
  split; [reflexivity|]. split; [reflexivity|].
  split; [exact Hd|]. split; [exact Hlam|]. split; [exact Hlc|]. split; [exact Hla|].
  unfold forward. cbn [String.eqb Ascii.eqb Bool.eqb]. unfold train_iter.
  rewrite Hkw. cbn [bind backbone loss]. rewrite Hbb.
  rewrite (LVViTLoss_forward_value logsumexp l output aux_output box label B N C
             tc ta lam lc la); try assumption; try reflexivity.
  cbn [bind ret cls_weight dense_weight l].
  replace (1 * lc + 1 * la)%Qc with (lc + la)%Qc by ring. reflexivity.
Qed.

End WrapperModes.

(** ** Boxes and one-hot targets *)

Lemma div_pos_iff (a : scalar) (n : nat) :
  1 <= n -> (0 < a / of_nat n)%Qc <-> (0 < a)%Qc.
Proof.
  intros Hn. pose proof (of_nat_pos n Hn) as Hpos.
  assert (Hne : of_nat n <> 0%Qc) by now apply of_nat_neq_0.
  assert (E : (a / of_nat n * of_nat n)%Qc = a) by (field; exact Hne).
  split; intros H.
  - rewrite <- E. replace 0%Qc with (0 * of_nat n)%Qc by ring.
    now apply Qcmult_lt_compat_r.
  - destruct (Qclt_le_dec 0 (a / of_nat n)) as [Hlt|Hle]; [exact Hlt|].
    exfalso. apply (Qclt_not_le _ _ H). rewrite <- E.
    replace 0%Qc with (0 * of_nat n)%Qc by ring.
    apply Qcmult_le_compat_r; [exact Hle|]. now apply Qclt_le_weak.
Qed.

(** X20. The classification target is mixed exactly for boxes of positive
    area: with [N >= 1] tokens, [lam < 1] if and only if
    [(x2 - x1) * (y2 - y1) > 0]; a box of zero or negative area (corners
    given in the other order on one axis) leaves the target as it is. *)
Theorem lam_of_mixes_iff (x1 y1 x2 y2 : scalar) (N : nat) (target_cls : mat) :
  1 <= N ->
  exists lam,
    lam_of (x1, y1, x2, y2) N = inr lam
    /\ ((lam < 1)%Qc <-> (0 < (x2 - x1) * (y2 - y1))%Qc)
    /\ (((x2 - x1) * (y2 - y1) <= 0)%Qc -> mix_target lam target_cls = target_cls).
Proof.
  intros HN. exists (1 - ((x2 - x1) * (y2 - y1) / of_nat N))%Qc.
  assert (Hiff : (1 - (x2 - x1) * (y2 - y1) / of_nat N < 1)%Qc
                 <-> (0 < (x2 - x1) * (y2 - y1))%Qc).
  { rewrite <- (div_pos_iff _ N HN). rewrite (Qclt_minus_iff (1 - _)%Qc 1%Qc).
    replace (1 + - (1 - (x2 - x1) * (y2 - y1) / of_nat N))%Qc
      with ((x2 - x1) * (y2 - y1) / of_nat N)%Qc by ring.
    reflexivity. }
  split; [|split].
  - unfold lam_of. destruct (Nat.eqb_spec N 0); [lia|reflexivity].
  - exact Hiff.
  - intros Hle. unfold mix_target.
    destruct (ltb _ 1) eqn:E; [|reflexivity].
    apply ltb_true, Hiff in E. exfalso. exact (Qclt_not_le _ _ E Hle).
Qed.

Lemma sum_one_hot (f : nat -> scalar) (c s n : nat) :
  s <= c -> c < s + n ->
  sum (map (fun j => (- (if j =? c then 1 else 0) * f j)%Qc) (seq s n)) = (- f c)%Qc.
Proof.
  revert s. induction n as [|n IH]; intros s Hs Hc; [lia|].
  cbn [seq map]. unfold sum in *. cbn [fold_right].
  destruct (Nat.eqb_spec s c) as [->|Hne].
  - assert (Hz : fold_right Qcplus 0%Qc
                   (map (fun j => (- (if j =? c then 1 else 0) * f j)%Qc) (seq (S c) n))
                 = 0%Qc).
    { clear. assert (H : forall m k, c < k ->
        fold_right Qcplus 0%Qc
          (map (fun j => (- (if j =? c then 1 else 0) * f j)%Qc) (seq k m)) = 0%Qc).
      { induction m as [|m IHm]; intros k Hk; [reflexivity|].
        cbn [seq map fold_right]. rewrite IHm by lia.
        destruct (Nat.eqb_spec k c); [lia|]. ring. }
      apply H. lia. }
    rewrite Hz. ring.
  - rewrite IH by lia. ring.
Qed.

Lemma entry_log_softmax (lse : vec -> scalar) (x : mat) (M C i j : nat) :
  has_shape2 x M C = true -> i < M -> j < C ->
  entry (log_softmax lse x) i j = (entry x i j - lse (nth i x []))%Qc.
Proof.
  intros H Hi Hj. unfold log_softmax, entry.
  set (g := fun row : list Qc => map (fun v => (v - lse row)%Qc) row).
  change (nth j (nth i (map g x) []) 0%Qc = (nth j (nth i x []) 0 - lse (nth i x []))%Qc).
  change (@nil Qc) with (g []) at 1. rewrite (map_nth g). unfold g.
  rewrite (nth_indep _ 0%Qc ((fun v => (v - lse (nth i x []))%Qc) 0%Qc))
    by (rewrite length_map, (has_shape2_nth _ _ _ _ H Hi); lia).
  now rewrite (map_nth (fun v => (v - lse (nth i x []))%Qc)).
Qed.

(** X21. On one-hot targets the soft-target cross-entropy is the ordinary
    cross-entropy: when row [i] of a target of the shape [M, C] of the
    logits is 1 at class [cls[i]] and 0 elsewhere, the loss is the mean over
    the rows of [logsumexp(x[i]) - x[i][cls[i]]]. *)
Theorem CE_forward_one_hot (logsumexp : vec -> scalar) (x target : mat)
        (cls : list nat) (M C : nat) :
  has_shape2 x M C = true ->
  has_shape2 target M C = true ->
  (forall i, i < M -> nth i cls 0 < C) ->
  (forall i j, i < M -> j < C ->
     entry target i j = if j =? nth i cls 0 then 1%Qc else 0%Qc) ->
  CE_forward logsumexp x target
  = inr (mean (map (fun i => (logsumexp (nth i x []) - entry x i (nth i cls 0%nat))%Qc)
                   (seq 0 M))).
Proof.
  intros Hx Ht Hcls Hone.
  rewrite (CE_forward_entries logsumexp x target M C Hx Ht).
  f_equal. f_equal. apply map_ext_in. intros i Hi. apply in_seq in Hi. simpl in Hi.
  erewrite map_ext_in.
  2:{ intros j Hj. apply in_seq in Hj. simpl in Hj.
      rewrite (Hone i j) by lia. reflexivity. }
  rewrite (sum_one_hot (fun j => entry (log_softmax logsumexp x) i j) (nth i cls 0) 0 C)
    by (try lia; apply Hcls; lia).
  rewrite (entry_log_softmax logsumexp x M C) by (try lia; auto; apply Hcls; lia).
  ring.
Qed.

(** ** The further properties on the sample inputs *)

Lemma CE_forward_mix_target_witness :
  exists l l',
    CE_forward sample_logsumexp sample_output sample_target2 = inr l
    /\ CE_forward sample_logsumexp sample_output (mix_target (q 1 2) sample_target2)
       = inr (q 1 2 * l + (1 - q 1 2) * l')%Qc.
Proof.
  destruct (CE_forward_mix_target sample_logsumexp sample_output sample_target2
              (q 1 2) 2 5) as (l & l' & Hl & _ & Hm);
    [reflexivity | reflexivity | reflexivity |].
  exists l, l'. split; [exact Hl | exact Hm].
Defined.

Lemma CE_forward_tiled_witness :
  CE_forward sample_logsumexp (concat sample_aux) sample_target2
  = CE_forward sample_logsumexp (concat sample_aux) (tile0 2 sample_target2).
Proof.
  apply (CE_forward_tiled sample_logsumexp (concat sample_aux) sample_target2 4 2 5 2);
    reflexivity.
Defined.

Lemma CE_forward_mismatch_witness :
  CE_forward sample_logsumexp (concat sample_aux) sample_target_three
  = inl (ShapeError "multiply").
Proof.
  apply (CE_forward_mismatch sample_logsumexp (concat sample_aux)
           sample_target_three 4 3 5);
    [reflexivity | reflexivity | lia | lia | simpl; lia].
Defined.

Lemma mix_target_row_sums_witness :
  Forall (fun row => sum row = 1%Qc) (mix_target (q 1 2) sample_target2).
Proof.
  apply (mix_target_row_sums (q 1 2) 1%Qc sample_target2 2 5); [reflexivity|].
  repeat constructor; apply Qc_is_canon; reflexivity.
Defined.

Lemma mix_target_palindrome_witness :
  mix_target (q 1 2) [[q 1 1; q 0 1]] = [[q 1 1; q 0 1]].
Proof.
  apply (mix_target_palindrome (q 1 2) [[q 1 1; q 0 1]]). reflexivity.
Defined.

Lemma decompose_target_too_few_slices_witness :
  decompose_target true 1 2 5 (Rank3 sample_target_one_slice) = inl IndexError.
Proof.
  apply (decompose_target_too_few_slices true 1 2 5 1 5 1 sample_target_one_slice);
    [reflexivity | lia | lia | lia].
Defined.

Lemma decompose_target_row_sums_witness :
  exists target_cls target_aux,
    decompose_target true 2 2 5 (Rank3 sample_target3) = inr (target_cls, target_aux)
    /\ sum (nth 0 target_cls []) = 1%Qc.
Proof.
  destruct (decompose_target_row_sums true 2 2 5 sample_target3 1%Qc)
    as (tc & ta & Hd & Hs); [reflexivity | lia | lia |].
  exists tc, ta. split; [exact Hd|].
  apply (Hs 0); [lia | apply Qc_is_canon; reflexivity | apply Qc_is_canon; reflexivity].
Defined.

Lemma accuracy_monotone_witness :
  exists a a',
    accuracy sample_output (SoftLabel sample_target2) [1; 5] = inr [a; a']
    /\ (a <= a')%Qc.
Proof.
  apply (accuracy_monotone sample_output (SoftLabel sample_target2) 1 5 2 5);
    [reflexivity | reflexivity | lia | lia | lia | lia].
Defined.

Lemma accuracy_all_classes_witness :
  accuracy sample_output (SoftLabel sample_target2) [5] = inr [q 100 1].
Proof.
  apply (accuracy_all_classes sample_output (SoftLabel sample_target2) 2 5);
    [reflexivity | reflexivity | lia | lia | discriminate].
Defined.

Lemma accuracy_errors_witness :
  accuracy sample_output (ClassIndex [4; 1; 0]) [1; 5] = inl (ShapeError "expand_as").
Proof.
  apply (accuracy_errors sample_output (ClassIndex []) [4; 1; 0] [1; 5] 2 5);
    [reflexivity | simpl; lia | simpl; lia | simpl; lia | simpl; lia].
Defined.

Lemma LVViTLoss_forward_accuracies_witness :
  exists l acc1 acc5,
    LVViTLoss_forward sample_logsumexp sample_loss
                      (sample_output, sample_aux, sample_bbox)
                      (Rank3 sample_target3)
    = inr [("loss"%string, l); ("acc1"%string, acc1); ("acc5"%string, acc5)]
    /\ (acc1 <= acc5)%Qc.
Proof.
  destruct (LVViTLoss_forward_accuracies sample_logsumexp sample_loss sample_output
              sample_aux sample_bbox (Rank3 sample_target3) 2 2 5)
    as (l & a1 & a5 & Hf & _ & Hle & _);
    [reflexivity | reflexivity | reflexivity | reflexivity | lia | lia | lia |].
  exists l, a1, a5. split; [exact Hf | exact Hle].
Defined.

Lemma LVViTLoss_forward_five_classes_witness :
  exists l acc1,
    LVViTLoss_forward sample_logsumexp sample_loss
                      (sample_output, sample_aux, sample_bbox)
                      (Rank2 sample_target2)
    = inr [("loss"%string, l); ("acc1"%string, acc1); ("acc5"%string, q 100 1)].
Proof.
  apply (LVViTLoss_forward_five_classes sample_logsumexp sample_loss sample_output
           sample_aux sample_bbox (Rank2 sample_target2) 2 2);
    [reflexivity | reflexivity | reflexivity | reflexivity | lia | lia].
Defined.

Lemma LVViTLoss_forward_mixed_loss_witness :
  exists l l' loss_aux acc1 acc5,
    LVViTLoss_forward sample_logsumexp sample_loss
                      (sample_output, sample_aux, sample_bbox)
                      (Rank2 sample_target2)
    = inr [("loss"%string,
            (1 * ((1 - (q 1 1 - q 0 1) * (q 1 1 - q 0 1) / of_nat 2) * l
                  + (1 - (1 - (q 1 1 - q 0 1) * (q 1 1 - q 0 1) / of_nat 2)) * l')
             + 1 * loss_aux)%Qc);
           ("acc1"%string, acc1); ("acc5"%string, acc5)].
Proof.
  destruct (LVViTLoss_forward_mixed_loss sample_logsumexp sample_loss sample_output
              sample_aux sample_bbox (Rank2 sample_target2) 2 2 5
              (1 - (q 1 1 - q 0 1) * (q 1 1 - q 0 1) / of_nat 2)%Qc)
    as (tc & ta & l & l' & la & a1 & a5 & _ & _ & _ & _ & Hf);
    [reflexivity | reflexivity | reflexivity | reflexivity | lia | lia | lia
     | reflexivity | reflexivity |].
  exists l, l', la, a1, a5. exact Hf.
Defined.

Lemma forward_test_mode_witness :
  forward sample_logsumexp sample_wrapper [Image tt; Label (Rank2 sample_target2)]
          "test" []
  = inr (Outs (sample_output, sample_aux, sample_bbox)).
Proof.
  apply (forward_test_mode sample_logsumexp unit unit sample_wrapper
           [Image tt; Label (Rank2 sample_target2)] []).
  exists tt, (Label (Rank2 sample_target2)). split; reflexivity.
Defined.

Lemma forward_extract_mode_witness :
  forward sample_logsumexp sample_wrapper [Image tt] "extract" []
  = inr (Features tt).
Proof.
  apply (forward_extract_mode sample_logsumexp unit unit sample_wrapper [Image tt] []).
  exists tt, []. split; reflexivity.
Defined.

Lemma forward_arity_witness :
  exists msg,
    forward sample_logsumexp sample_wrapper [Image tt] "train" []
    = inl (ValueError msg)
    /\ forward sample_logsumexp sample_wrapper [Image tt] "test" []
       = inl (ValueError msg).
Proof.
  apply (forward_arity sample_logsumexp unit unit sample_wrapper [Image tt] []).
  simpl. lia.
Defined.

Lemma LVViTWrapper_init_train_witness :
  exists self loss_cls loss_aux acc1 acc5,
    LVViTWrapper_init (fun _ : unit => (sample_output, sample_aux, sample_bbox))
                      (fun _ : unit => tt) = inr self
    /\ forward sample_logsumexp self [Image tt; Label (Rank2 sample_target2)] "train"
               [("mixup_fn"%string, PyNone)]
       = inr (Losses [("loss"%string, (loss_cls + loss_aux)%Qc);
                      ("acc1"%string, acc1); ("acc5"%string, acc5)]).
Proof.
  destruct (LVViTWrapper_init_train sample_logsumexp unit unit
              (fun _ : unit => (sample_output, sample_aux, sample_bbox))
              (fun _ : unit => tt) tt (Rank2 sample_target2)
              [("mixup_fn"%string, PyNone)] sample_output sample_aux sample_bbox 2 2 5)
    as (self & tc & ta & lam & lc & la & a1 & a5 & Hi & _ & _ & _ & _ & _ & Hf);
    [reflexivity | reflexivity | reflexivity | reflexivity | lia | lia | lia
     | reflexivity |].
  exists self, lc, la, a1, a5. split; [exact Hi | exact Hf].
Defined.

Lemma lam_of_mixes_iff_witness :
  exists lam, lam_of sample_bbox 2 = inr lam /\ (lam < 1)%Qc.
Proof.
  destruct (lam_of_mixes_iff (q 0 1) (q 0 1) (q 1 1) (q 1 1) 2 sample_target2)
    as (lam & Hl & Hiff & _); [lia|].
  exists lam. split; [exact Hl|]. apply Hiff. reflexivity.
Defined.

Lemma CE_forward_one_hot_witness :
  CE_forward sample_logsumexp sample_output sample_target2
  = inr (mean (map (fun i => (sample_logsumexp (nth i sample_output [])
                              - entry sample_output i (nth i [4%nat; 1%nat] 0%nat))%Qc)
                   (seq 0 2))).
Proof.
  apply (CE_forward_one_hot sample_logsumexp sample_output sample_target2 [4; 1] 2 5);
    [reflexivity | reflexivity | |].
  - intros i Hi. destruct i as [|[|i]]; simpl; lia.
  - intros i j Hi Hj. destruct i as [|[|i]]; [| |lia];
      destruct j as [|[|[|[|[|j]]]]]; try lia; reflexivity.
Defined.
